(** * The recording state machine of [useReactMediaRecorder]

    A shallow embedding of the hook in [src/components/MediaRecord.tsx]
    (lines 30-118): its two pieces of React state, its three refs, the five
    commands it returns, and the two handlers it installs on the
    [MediaRecorder] it creates.

    The hook is effectful JavaScript: it mutates refs, calls into the host
    platform ([getUserMedia], [MediaRecorder], [MediaStreamTrack.stop],
    [URL.createObjectURL]) and is re-entered by the host through the
    [ondataavailable] and [onstop] handlers.  The embedding therefore uses a
    state-and-exception monad over one record holding both the hook's cells
    and the part of the host the hook talks to.  Host objects are identified
    by their allocation index. *)

From Stdlib.Strings Require Import Ascii String Byte.
From stdpp Require Import base list.

Set Default Proof Using "Type".

(** ** Data *)

(** [type RecordingStatus] (lines 8-13). *)
Inductive RecordingStatus :=
| idle | recording | paused | stopped | permission_denied.

Definition RecordingStatus_eqb (a b : RecordingStatus) : bool :=
  match a, b with
  | idle, idle | recording, recording | paused, paused
  | stopped, stopped | permission_denied, permission_denied => true
  | _, _ => false
  end.

(** [Array.prototype.includes] on a list of status literals. *)
Definition includes (l : list RecordingStatus) (x : RecordingStatus) : bool :=
  existsb (RecordingStatus_eqb x) l.

(** A [Blob]: its bytes and its [type] tag. *)
Record Blob := { blob_bytes : list byte; blob_type : string }.

(** The [type] a [Blob] constructor keeps: the option converted to ASCII
    lower case, or the empty string when it holds a character outside
    U+0020..U+007E. *)
Definition ascii_printable (c : ascii) : bool :=
  (32 <=? nat_of_ascii c) && (nat_of_ascii c <=? 126).

Definition ascii_lower (c : ascii) : ascii :=
  if (65 <=? nat_of_ascii c) && (nat_of_ascii c <=? 90)
  then ascii_of_nat (nat_of_ascii c + 32)
  else c.

Fixpoint string_forallb (f : ascii -> bool) (s : string) : bool :=
  match s with
  | EmptyString => true
  | String c s' => f c && string_forallb f s'
  end.

Fixpoint string_map (f : ascii -> ascii) (s : string) : string :=
  match s with
  | EmptyString => EmptyString
  | String c s' => String (f c) (string_map f s')
  end.

Definition blob_type_of (type : string) : string :=
  if string_forallb ascii_printable type then string_map ascii_lower type
  else EmptyString.

(** [new Blob(parts, { type })]: the parts' bytes, in order. *)
Definition new_Blob (parts : list Blob) (type : string) : Blob :=
  {| blob_bytes := concat (map blob_bytes parts);
     blob_type := blob_type_of type |}.

(** A thrown JavaScript value: a [DOMException] with its [name], or any
    other error object. *)
Inductive Thrown :=
| DOMException (name : string)
| JsError (name : string).

(** [error instanceof DOMException && error.name === "NotAllowedError"]
    (line 77). *)
Definition is_NotAllowedError (error : Thrown) : bool :=
  match error with
  | DOMException name => String.eqb name "NotAllowedError"
  | JsError _ => false
  end.

(** *** Host objects *)

(** A [MediaStream] handed out by [getUserMedia].  The hook only ever calls
    [getTracks().forEach(track => track.stop())] on it, so a stream is
    summarised by how many times that sweep ran; its tracks are live until
    the first one. *)
Record MediaStream := { trackStops : nat }.

(** [MediaRecorder.state]. *)
Inductive RecorderState := rs_inactive | rs_recording | rs_paused.

(** A [MediaRecorder]: the stream it was built on, its [state] and
    [mimeType], whether the hook has assigned its [ondataavailable] and
    [onstop] properties, and whether a [stop] event is queued for it. *)
Record MediaRecorder := {
  mr_stream : nat;
  mr_state : RecorderState;
  mr_mimeType : string;
  mr_ondataavailable : bool;
  mr_onstop : bool;
  mr_stopQueued : bool
}.

Definition mr_active (r : MediaRecorder) : bool :=
  match mr_state r with rs_inactive => false | _ => true end.

(** The whole store: first the hook's cells (lines 34-38), then the host. *)
Record St := {
  status : RecordingStatus;              (* useState<RecordingStatus>("idle") *)
  mediaBlobUrl : option nat;             (* useState<string | null>(null) *)
  mediaRecorderRef : option nat;         (* useRef<MediaRecorder | null>(null) *)
  audioChunksRef : list Blob;            (* useRef<Blob[]>([]) *)
  streamRef : option nat;                (* useRef<MediaStream | null>(null) *)
  streams : list MediaStream;            (* every stream getUserMedia granted *)
  recorders : list MediaRecorder;        (* every MediaRecorder constructed *)
  blobUrlStore : list Blob;              (* object URLs minted; URL n is entry n *)
  onStopCalls : list Blob;               (* arguments the onStop prop was called with *)
  console : list Thrown;                 (* console.error log *)
  pendingGetUserMedia : list bool        (* unsettled getUserMedia({audio}) requests *)
}.

(** The state of a freshly mounted hook on a host that has handed out
    nothing yet. *)
Definition init : St :=
  {| status := idle; mediaBlobUrl := None; mediaRecorderRef := None;
     audioChunksRef := []; streamRef := None;
     streams := []; recorders := []; blobUrlStore := [];
     onStopCalls := []; console := []; pendingGetUserMedia := [] |}.

Definition set_status (v : RecordingStatus) (s : St) : St :=
  {| status := v; mediaBlobUrl := mediaBlobUrl s;
     mediaRecorderRef := mediaRecorderRef s;
     audioChunksRef := audioChunksRef s; streamRef := streamRef s;
     streams := streams s; recorders := recorders s;
     blobUrlStore := blobUrlStore s; onStopCalls := onStopCalls s;
     console := console s; pendingGetUserMedia := pendingGetUserMedia s |}.

Definition set_mediaBlobUrl (v : option nat) (s : St) : St :=
  {| status := status s; mediaBlobUrl := v;
     mediaRecorderRef := mediaRecorderRef s;
     audioChunksRef := audioChunksRef s; streamRef := streamRef s;
     streams := streams s; recorders := recorders s;
     blobUrlStore := blobUrlStore s; onStopCalls := onStopCalls s;
     console := console s; pendingGetUserMedia := pendingGetUserMedia s |}.

Definition set_mediaRecorderRef (v : option nat) (s : St) : St :=
  {| status := status s; mediaBlobUrl := mediaBlobUrl s;
     mediaRecorderRef := v;
     audioChunksRef := audioChunksRef s; streamRef := streamRef s;
     streams := streams s; recorders := recorders s;
     blobUrlStore := blobUrlStore s; onStopCalls := onStopCalls s;
     console := console s; pendingGetUserMedia := pendingGetUserMedia s |}.

Definition set_audioChunksRef (v : list Blob) (s : St) : St :=
  {| status := status s; mediaBlobUrl := mediaBlobUrl s;
     mediaRecorderRef := mediaRecorderRef s;
     audioChunksRef := v; streamRef := streamRef s;
     streams := streams s; recorders := recorders s;
     blobUrlStore := blobUrlStore s; onStopCalls := onStopCalls s;
     console := console s; pendingGetUserMedia := pendingGetUserMedia s |}.

Definition set_streamRef (v : option nat) (s : St) : St :=
  {| status := status s; mediaBlobUrl := mediaBlobUrl s;
     mediaRecorderRef := mediaRecorderRef s;
     audioChunksRef := audioChunksRef s; streamRef := v;
     streams := streams s; recorders := recorders s;
     blobUrlStore := blobUrlStore s; onStopCalls := onStopCalls s;
     console := console s; pendingGetUserMedia := pendingGetUserMedia s |}.

Definition set_streams (v : list MediaStream) (s : St) : St :=
  {| status := status s; mediaBlobUrl := mediaBlobUrl s;
     mediaRecorderRef := mediaRecorderRef s;
     audioChunksRef := audioChunksRef s; streamRef := streamRef s;
     streams := v; recorders := recorders s;
     blobUrlStore := blobUrlStore s; onStopCalls := onStopCalls s;
     console := console s; pendingGetUserMedia := pendingGetUserMedia s |}.

Definition set_recorders (v : list MediaRecorder) (s : St) : St :=
  {| status := status s; mediaBlobUrl := mediaBlobUrl s;
     mediaRecorderRef := mediaRecorderRef s;
     audioChunksRef := audioChunksRef s; streamRef := streamRef s;
     streams := streams s; recorders := v;
     blobUrlStore := blobUrlStore s; onStopCalls := onStopCalls s;
     console := console s; pendingGetUserMedia := pendingGetUserMedia s |}.

Definition set_blobUrlStore (v : list Blob) (s : St) : St :=
  {| status := status s; mediaBlobUrl := mediaBlobUrl s;
     mediaRecorderRef := mediaRecorderRef s;
     audioChunksRef := audioChunksRef s; streamRef := streamRef s;
     streams := streams s; recorders := recorders s;
     blobUrlStore := v; onStopCalls := onStopCalls s;
     console := console s; pendingGetUserMedia := pendingGetUserMedia s |}.

Definition set_onStopCalls (v : list Blob) (s : St) : St :=
  {| status := status s; mediaBlobUrl := mediaBlobUrl s;
     mediaRecorderRef := mediaRecorderRef s;
     audioChunksRef := audioChunksRef s; streamRef := streamRef s;
     streams := streams s; recorders := recorders s;
     blobUrlStore := blobUrlStore s; onStopCalls := v;
     console := console s; pendingGetUserMedia := pendingGetUserMedia s |}.

Definition set_console (v : list Thrown) (s : St) : St :=
  {| status := status s; mediaBlobUrl := mediaBlobUrl s;
     mediaRecorderRef := mediaRecorderRef s;
     audioChunksRef := audioChunksRef s; streamRef := streamRef s;
     streams := streams s; recorders := recorders s;
     blobUrlStore := blobUrlStore s; onStopCalls := onStopCalls s;
     console := v; pendingGetUserMedia := pendingGetUserMedia s |}.

Definition set_pendingGetUserMedia (v : list bool) (s : St) : St :=
  {| status := status s; mediaBlobUrl := mediaBlobUrl s;
     mediaRecorderRef := mediaRecorderRef s;
     audioChunksRef := audioChunksRef s; streamRef := streamRef s;
     streams := streams s; recorders := recorders s;
     blobUrlStore := blobUrlStore s; onStopCalls := onStopCalls s;
     console := console s; pendingGetUserMedia := v |}.

(** ** The monad: state plus JavaScript exceptions *)

(** A computation either returns a value or throws; either way it leaves
    the store as its last write left it. *)
Inductive Res (A : Type) :=
| Ret (a : A) (s : St)
| Exc (e : Thrown) (s : St).
Arguments Ret {A} a s.
Arguments Exc {A} e s.

Definition M (A : Type) : Type := St -> Res A.

Definition ret {A} (a : A) : M A := fun s => Ret a s.

Definition bind {A B} (c : M A) (k : A -> M B) : M B :=
  fun s => match c s with
           | Ret a s' => k a s'
           | Exc e s' => Exc e s'
           end.

Definition throw {A} (e : Thrown) : M A := fun s => Exc e s.

(** [try { body } catch (error) { handler }]. *)
Definition try_catch {A} (body : M A) (handler : Thrown -> M A) : M A :=
  fun s => match body s with
           | Ret a s' => Ret a s'
           | Exc e s' => handler e s'
           end.

(** The store a computation leaves behind, thrown or not. *)
Definition final {A} (r : Res A) : St :=
  match r with Ret _ s => s | Exc _ s => s end.

Definition thrown {A} (r : Res A) : option Thrown :=
  match r with Ret _ _ => None | Exc e _ => Some e end.

Declare Scope js_scope.
Delimit Scope js_scope with js.
Notation "x <- c ;; k" := (bind c (fun x => k))
  (at level 100, c at next level, right associativity) : js_scope.
Notation "c ;; k" := (bind c (fun _ => k))
  (at level 100, right associativity) : js_scope.
Local Open Scope js_scope.

Definition gets {A} (f : St -> A) : M A := fun s => Ret (f s) s.
Definition modify (f : St -> St) : M unit := fun s => Ret tt (f s).

(** ** The host platform

    What the hook calls, and what calls the hook back.  The recorder
    methods follow the state rules of the MediaStream Recording API:
    [start] needs an inactive recorder, [stop] on an inactive recorder
    returns at once, [pause] and [resume] on an inactive recorder throw
    [InvalidStateError]. *)

Definition TypeError : Thrown := JsError "TypeError".
Definition InvalidStateError : Thrown := DOMException "InvalidStateError".

(** How one [getUserMedia] request, and the recorder set-up that follows it
    inside the same [try], turn out.  The host decides. *)
Inductive Settlement :=
| rejects (error : Thrown)                         (* the promise rejects *)
| ctor_throws (error : Thrown)                     (* new MediaRecorder(stream) throws *)
| start_throws (mimeType : string) (error : Thrown)  (* recorder.start() throws *)
| succeeds (mimeType : string).

Definition ctor_error (o : Settlement) : option Thrown :=
  match o with ctor_throws error => Some error | _ => None end.

Definition start_error (o : Settlement) : option Thrown :=
  match o with start_throws _ error => Some error | _ => None end.

Definition granted_mimeType (o : Settlement) : string :=
  match o with
  | start_throws mimeType _ | succeeds mimeType => mimeType
  | _ => EmptyString
  end.

(** [navigator.mediaDevices.getUserMedia({ audio })], up to the [await]. *)
Definition request_getUserMedia (audio : bool) : M unit :=
  modify (fun s => set_pendingGetUserMedia (pendingGetUserMedia s ++ [audio]) s).

(** The [await] resuming: a fresh stream with live tracks, or the
    rejection rethrown. *)
Definition await_getUserMedia (o : Settlement) : M nat :=
  match o with
  | rejects error => throw error
  | _ => fun s => Ret (length (streams s))
                      (set_streams (streams s ++ [{| trackStops := 0 |}]) s)
  end.

(** [new MediaRecorder(stream)]. *)
Definition new_MediaRecorder (stream : nat) (mimeType : string)
    (fails : option Thrown) : M nat :=
  match fails with
  | Some error => throw error
  | None => fun s =>
      Ret (length (recorders s))
          (set_recorders
             (recorders s ++
                [{| mr_stream := stream; mr_state := rs_inactive;
                    mr_mimeType := mimeType; mr_ondataavailable := false;
                    mr_onstop := false; mr_stopQueued := false |}]) s)
  end.

Definition with_state (v : RecorderState) (m : MediaRecorder) : MediaRecorder :=
  {| mr_stream := mr_stream m; mr_state := v; mr_mimeType := mr_mimeType m;
     mr_ondataavailable := mr_ondataavailable m; mr_onstop := mr_onstop m;
     mr_stopQueued := mr_stopQueued m |}.

Definition with_ondataavailable (m : MediaRecorder) : MediaRecorder :=
  {| mr_stream := mr_stream m; mr_state := mr_state m;
     mr_mimeType := mr_mimeType m;
     mr_ondataavailable := true; mr_onstop := mr_onstop m;
     mr_stopQueued := mr_stopQueued m |}.

Definition with_onstop (m : MediaRecorder) : MediaRecorder :=
  {| mr_stream := mr_stream m; mr_state := mr_state m;
     mr_mimeType := mr_mimeType m;
     mr_ondataavailable := mr_ondataavailable m; mr_onstop := true;
     mr_stopQueued := mr_stopQueued m |}.

Definition with_stopQueued (v : bool) (m : MediaRecorder) : MediaRecorder :=
  {| mr_stream := mr_stream m; mr_state := mr_state m;
     mr_mimeType := mr_mimeType m;
     mr_ondataavailable := mr_ondataavailable m; mr_onstop := mr_onstop m;
     mr_stopQueued := v |}.

(** Reading a property of recorder [r]. *)
Definition the_recorder (r : nat) : M MediaRecorder :=
  fun s => match recorders s !! r with
           | Some m => Ret m s
           | None => Exc TypeError s
           end.

Definition update_recorder (r : nat) (f : MediaRecorder -> MediaRecorder) : M unit :=
  modify (fun s => set_recorders (alter f r (recorders s)) s).

(** [recorder.start()]. *)
Definition mr_start (r : nat) (fails : option Thrown) : M unit :=
  match fails with
  | Some error => throw error
  | None =>
      m <- the_recorder r ;;
      match mr_state m with
      | rs_inactive => update_recorder r (with_state rs_recording)
      | _ => throw InvalidStateError
      end
  end.

(** [recorder.stop()]: the recorder goes inactive and its [stop] event is
    queued. *)
Definition mr_stop (r : nat) : M unit :=
  m <- the_recorder r ;;
  match mr_state m with
  | rs_inactive => ret tt
  | _ => update_recorder r (fun m => with_stopQueued true (with_state rs_inactive m))
  end.

(** [recorder.pause()]. *)
Definition mr_pause (r : nat) : M unit :=
  m <- the_recorder r ;;
  match mr_state m with
  | rs_inactive => throw InvalidStateError
  | rs_recording => update_recorder r (with_state rs_paused)
  | rs_paused => ret tt
  end.

(** [recorder.resume()]. *)
Definition mr_resume (r : nat) : M unit :=
  m <- the_recorder r ;;
  match mr_state m with
  | rs_inactive => throw InvalidStateError
  | rs_paused => update_recorder r (with_state rs_recording)
  | rs_recording => ret tt
  end.

(** [stream.getTracks().forEach((track) => track.stop())]. *)
Definition stopTracks (stream : nat) : M unit :=
  modify (fun s =>
    set_streams
      (alter (fun m => {| trackStops := S (trackStops m) |}) stream (streams s)) s).

(** [URL.createObjectURL(blob)].  Nothing in the hook ever calls
    [URL.revokeObjectURL], so the store only grows. *)
Definition createObjectURL (blob : Blob) : M nat :=
  fun s => Ret (length (blobUrlStore s))
               (set_blobUrlStore (blobUrlStore s ++ [blob]) s).

Definition console_error (error : Thrown) : M unit :=
  modify (fun s => set_console (console s ++ [error]) s).

(** ** The hook *)

(** [UseReactMediaRecorderProps] (lines 15-18).  [onStop] is optional:
    the field says whether the caller passed one.  The function itself is
    the caller's code; all the hook can observe of it is whether a call
    returns or throws, so it is given by [onStop_throws]: what its
    invocation number [n] (counting from 0) throws, if anything.  Its
    invocations are logged in [onStopCalls]. *)
Record UseReactMediaRecorderProps := {
  audio : bool;
  onStop : bool;
  onStop_throws : nat -> option Thrown
}.

Definition getStatus : M RecordingStatus := gets status.
Definition setStatus (v : RecordingStatus) : M unit := modify (set_status v).
Definition setMediaBlobUrl (v : option nat) : M unit := modify (set_mediaBlobUrl v).

(** [onStop(audioBlob)]: the caller's function runs, and may throw. *)
Definition call_onStop (throws : nat -> option Thrown) (blob : Blob) : M unit :=
  fun s =>
    let s' := set_onStopCalls (onStopCalls s ++ [blob]) s in
    match throws (length (onStopCalls s)) with
    | None => Ret tt s'
    | Some error => Exc error s'
    end.

(** [ref.current!.member]: a [TypeError] when the ref holds [null]. *)
Definition deref {A} (ref : St -> option A) : M A :=
  fun s => match ref s with
           | Some a => Ret a s
           | None => Exc TypeError s
           end.

Section useReactMediaRecorder.

Variable props : UseReactMediaRecorderProps.

(** [reset] (lines 40-44). *)
Definition reset : M unit :=
  setStatus idle ;;
  setMediaBlobUrl None ;;
  modify (set_audioChunksRef []).

(** The [ondataavailable] handler (lines 53-55):
    [audioChunksRef.current.push(event.data)]. *)
Definition ondataavailable (data : Blob) : M unit :=
  modify (fun s => set_audioChunksRef (audioChunksRef s ++ [data]) s).

(** The [onstop] handler (lines 57-70). *)
Definition onstop : M unit :=
  chunks <- gets audioChunksRef ;;
  cur <- deref mediaRecorderRef ;;
  m <- the_recorder cur ;;
  let audioBlob := new_Blob chunks (mr_mimeType m) in
  audioUrl <- createObjectURL audioBlob ;;
  setMediaBlobUrl (Some audioUrl) ;;
  (if onStop props then call_onStop (onStop_throws props) audioBlob else ret tt) ;;
  modify (set_audioChunksRef []) ;;
  setStatus stopped.

(** [startRecording] (lines 46-83) is [async]; it runs in two turns.  The
    first issues the request. *)
Definition startRecording_call : M unit :=
  request_getUserMedia (audio props).

(** The second turn starts when the request settles and runs the rest of the
    [try] block, or the [catch]. *)
Definition startRecording_resume (o : Settlement) : M unit :=
  try_catch
    (stream <- await_getUserMedia o ;;
     modify (set_streamRef (Some stream)) ;;
     mr <- new_MediaRecorder stream (granted_mimeType o) (ctor_error o) ;;
     modify (set_mediaRecorderRef (Some mr)) ;;
     cur <- deref mediaRecorderRef ;;
     update_recorder cur with_ondataavailable ;;
     cur <- deref mediaRecorderRef ;;
     update_recorder cur with_onstop ;;
     cur <- deref mediaRecorderRef ;;
     mr_start cur (start_error o) ;;
     setStatus recording)
    (fun error =>
       console_error error ;;
       if is_NotAllowedError error
       then setStatus permission_denied
       else setStatus idle).

(** [stopRecording] (lines 85-93). *)
Definition stopRecording : M unit :=
  mr <- gets mediaRecorderRef ;;
  st <- getStatus ;;
  match mr with
  | Some cur =>
      if includes [recording; paused] st then
        mr_stop cur ;;
        sr <- gets streamRef ;;
        match sr with
        | Some stream => stopTracks stream
        | None => ret tt
        end
      else ret tt
  | None => ret tt
  end.

(** [pauseRecording] (lines 95-100). *)
Definition pauseRecording : M unit :=
  mr <- gets mediaRecorderRef ;;
  st <- getStatus ;;
  match mr with
  | Some cur =>
      if RecordingStatus_eqb st recording then
        mr_pause cur ;;
        setStatus paused
      else ret tt
  | None => ret tt
  end.

(** [resumeRecording] (lines 102-107). *)
Definition resumeRecording : M unit :=
  mr <- gets mediaRecorderRef ;;
  st <- getStatus ;;
  match mr with
  | Some cur =>
      if RecordingStatus_eqb st paused then
        mr_resume cur ;;
        setStatus recording
      else ret tt
  | None => ret tt
  end.

(** *** Stores the handlers produce

    Closed forms, each proved below to be what the handler it is named
    after leaves behind. *)

(** The store after a grant on which the recorder was built and started. *)
Definition started (mimeType : string) (s : St) : St :=
  set_status recording
    (set_recorders
       (recorders s ++
          [{| mr_stream := length (streams s); mr_state := rs_recording;
              mr_mimeType := mimeType; mr_ondataavailable := true;
              mr_onstop := true; mr_stopQueued := false |}])
       (set_mediaRecorderRef (Some (length (recorders s)))
          (set_streamRef (Some (length (streams s)))
             (set_streams (streams s ++ [{| trackStops := 0 |}]) s)))).

(** The [catch] block's effect (lines 74-82). *)
Definition caught (error : Thrown) (s : St) : St :=
  set_status (if is_NotAllowedError error then permission_denied else idle)
    (set_console (console s ++ [error]) s).

(** What the callback invoked from store [s] throws: nothing when no
    callback was passed. *)
Definition onStop_outcome (s : St) : option Thrown :=
  if onStop props then onStop_throws props (length (onStopCalls s)) else None.

(** The store [onstop] leaves when the current recorder reports
    [mimeType]: the artifact is minted and handed to the callback; the
    buffer is cleared and [status] set only if the callback returns. *)
Definition finalized (mimeType : string) (s : St) : St :=
  let audioBlob := new_Blob (audioChunksRef s) mimeType in
  let s1 := set_mediaBlobUrl (Some (length (blobUrlStore s)))
              (set_blobUrlStore (blobUrlStore s ++ [audioBlob]) s) in
  let s2 := if onStop props
            then set_onStopCalls (onStopCalls s ++ [audioBlob]) s1
            else s1 in
  match onStop_outcome s with
  | None => set_status stopped (set_audioChunksRef [] s2)
  | Some _ => s2
  end.

Definition dequeued (r : nat) (s : St) : St :=
  set_recorders (alter (with_stopQueued false) r (recorders s)) s.

(** The store after [pauseRecording] went through on recorder [cur]. *)
Definition pause_done (cur : nat) (s : St) : St :=
  set_status paused
    (set_recorders (alter (with_state rs_paused) cur (recorders s)) s).

(** The store after [stopRecording] went through on a capturing recorder
    [cur]: its completion is queued, and the tracks of the current stream
    are stopped. *)
Definition stop_requested (cur : nat) (s : St) : St :=
  let s1 := set_recorders
              (alter (fun m => with_stopQueued true (with_state rs_inactive m))
                 cur (recorders s)) s in
  match streamRef s with
  | Some stream =>
      set_streams
        (alter (fun m => {| trackStops := S (trackStops m) |}) stream (streams s))
        s1
  | None => s1
  end.

(** ** Turns of the event loop

    Everything runs on one thread, so an execution is a sequence of turns:
    the caller invoking one of the five commands, a [getUserMedia] request
    settling, or a recorder firing [dataavailable] or [stop].  Between turns
    React has re-rendered, so each command sees the current [status]. *)
Inductive Event :=
| call_startRecording
| settle (o : Settlement)
| call_stopRecording
| call_pauseRecording
| call_resumeRecording
| call_reset
| ev_dataavailable (r : nat) (data : Blob)
| ev_stop (r : nat).

(** What the host can do next: settle a request that is pending, deliver
    data from a recorder that is capturing or finishing, deliver a [stop]
    event that is queued.  The caller may invoke any command at any time. *)
Definition enabled (s : St) (e : Event) : bool :=
  match e with
  | settle _ =>
      match pendingGetUserMedia s with [] => false | _ :: _ => true end
  | ev_dataavailable r _ =>
      match recorders s !! r with
      | Some m => mr_active m || mr_stopQueued m
      | None => false
      end
  | ev_stop r =>
      match recorders s !! r with
      | Some m => mr_stopQueued m
      | None => false
      end
  | _ => true
  end.

Definition handle (e : Event) : M unit :=
  match e with
  | call_startRecording => startRecording_call
  | settle o =>
      modify (fun s => set_pendingGetUserMedia (tail (pendingGetUserMedia s)) s) ;;
      startRecording_resume o
  | call_stopRecording => stopRecording
  | call_pauseRecording => pauseRecording
  | call_resumeRecording => resumeRecording
  | call_reset => reset
  | ev_dataavailable r data =>
      m <- the_recorder r ;;
      if mr_ondataavailable m then ondataavailable data else ret tt
  | ev_stop r =>
      update_recorder r (with_stopQueued false) ;;
      m <- the_recorder r ;;
      if mr_onstop m then onstop else ret tt
  end.

(** One turn.  An exception that escapes a command or a handler is
    reported by the host and the loop goes on from the store as it stands. *)
Definition step (s : St) (e : Event) : option St :=
  if enabled s e then Some (final (handle e s)) else None.

Fixpoint run (s : St) (tr : list Event) : option St :=
  match tr with
  | [] => Some s
  | e :: tr' =>
      match step s e with
      | Some s' => run s' tr'
      | None => None
      end
  end.

Definition reachable (s : St) : Prop := exists tr, run init tr = Some s.

End useReactMediaRecorder.

(** The props [MediaRecorderComponent] passes (lines 132-135), for a
    caller whose [onRecordEnd] returns, as the [console.log] that [App]
    passes does. *)
Definition component_props : UseReactMediaRecorderProps :=
  {| audio := true; onStop := true; onStop_throws := fun _ => None |}.

(** The same, for a caller whose [onRecordEnd] throws the first time it is
    called and returns afterwards. *)
Definition throwing_props : UseReactMediaRecorderProps :=
  {| audio := true; onStop := true;
     onStop_throws := fun n => if Nat.eqb n 0 then Some (JsError "Error") else None |}.

(** ** The invariant of reachable stores

    A recorder that is capturing, or has a [stop] event queued, had both
    handlers assigned before it was started. *)
Definition handlers_installed (m : MediaRecorder) : Prop :=
  mr_active m || mr_stopQueued m = true ->
  mr_ondataavailable m = true /\ mr_onstop m = true.

Record Inv (s : St) : Prop := {
  inv_recorder_ref : forall r, mediaRecorderRef s = Some r -> r < length (recorders s);
  inv_stream_ref : forall i, streamRef s = Some i -> i < length (streams s);
  inv_url_ref : forall u, mediaBlobUrl s = Some u -> u < length (blobUrlStore s);
  inv_recorders : 0 < length (recorders s) -> is_Some (mediaRecorderRef s);
  inv_ref_stream : is_Some (mediaRecorderRef s) -> is_Some (streamRef s);
  inv_status_ref :
    status s <> idle -> status s <> permission_denied -> is_Some (mediaRecorderRef s);
  inv_stopped_url : status s = stopped -> is_Some (mediaBlobUrl s);
  inv_handlers : Forall handlers_installed (recorders s)
}.

(** ** Fragments of a trace

    The payloads of the [dataavailable] events of a trace that come after
    its last finalize ([stop] event) or [reset]. *)
Definition clears (e : Event) : bool :=
  match e with
  | ev_stop _ | call_reset => true
  | _ => false
  end.

Definition fragment (e : Event) : list Blob :=
  match e with
  | ev_dataavailable _ data => [data]
  | _ => []
  end.

Fixpoint fragments_since_clear (tr : list Event) : list Blob :=
  match tr with
  | [] => []
  | e :: tr' =>
      if existsb clears tr' then fragments_since_clear tr'
      else flat_map fragment (e :: tr')
  end.

(** Whether completion number [n] of an execution runs to its end: it does
    unless a callback was passed and throws on that invocation. *)
Definition completion_returns (props : UseReactMediaRecorderProps) (n : nat) : bool :=
  if onStop props
  then match onStop_throws props n with None => true | Some _ => false end
  else true.

(** The fragments of a trace that come after its last [reset] or its last
    completion that ran to its end, given the [n] completions and the
    fragments [buf] that came before the trace. *)
Fixpoint pending_fragments (props : UseReactMediaRecorderProps) (n : nat)
    (buf : list Blob) (tr : list Event) : list Blob :=
  match tr with
  | [] => buf
  | ev_dataavailable _ data :: tr' => pending_fragments props n (buf ++ [data]) tr'
  | call_reset :: tr' => pending_fragments props n [] tr'
  | ev_stop _ :: tr' =>
      pending_fragments props (S n)
        (if completion_returns props n then [] else buf) tr'
  | _ :: tr' => pending_fragments props n buf tr'
  end.

Definition fragments_since_returned_clear
    (props : UseReactMediaRecorderProps) (tr : list Event) : list Blob :=
  pending_fragments props 0 [] tr.

(** ** Scenarios

    Concrete executions of the component ([onRecordEnd] always passed). *)

Definition webm : string := "audio/webm".

Definition b1 : Blob := {| blob_bytes := [x01; x02]; blob_type := webm |}.
Definition b2 : Blob := {| blob_bytes := [x03]; blob_type := webm |}.

(** Scenario A up to, and excluding, the completion event:
    start, grant, fragment, stop, final fragment. *)
Definition scenarioA : list Event :=
  [call_startRecording; settle (succeeds webm); ev_dataavailable 0 b1;
   call_stopRecording; ev_dataavailable 0 b2].

(** The store of a trace that is known to be executable; [init] otherwise. *)
Definition store_after (tr : list Event) : St :=
  default init (run component_props init tr).

(** A session that was granted and is capturing. *)
Definition capturing : list Event :=
  [call_startRecording; settle (succeeds webm)].

(** Stopped, completion not yet delivered. *)
Definition pending_finalize : list Event := capturing ++ [call_stopRecording].

(** A take whose completion callback throws: start, grant, stop, the
    recorder's data, its completion. *)
Definition first_take : list Event :=
  [call_startRecording; settle (succeeds webm); call_stopRecording;
   ev_dataavailable 0 b1; ev_stop 0].

(** The take that follows it, up to and excluding its completion. *)
Definition next_take : list Event :=
  [call_startRecording; settle (succeeds webm); call_stopRecording;
   ev_dataavailable 1 b2].

(** A take on a recorder that reports its encoding in mixed case, up to
    and excluding its completion. *)
Definition mixed_case : string := "audio/WebM;codecs=Opus".

Definition mixed_case_take : list Event :=
  [call_startRecording; settle (succeeds mixed_case); ev_dataavailable 0 b1;
   call_stopRecording].

(** Scenario D: [reset()] between [stop()] and the completion event. *)
Definition reset_before_completion : list Event :=
  capturing ++
  [ev_dataavailable 0 b1; call_stopRecording; call_reset;
   ev_dataavailable 0 b2; ev_stop 0].


(** A session abandoned by [reset()] while capturing. *)
Definition abandoned : list Event := capturing ++ [call_reset].

(** Scenario A completed, then a second take granted. *)
Definition second_take : list Event :=
  scenarioA ++ [ev_stop 0; call_startRecording; settle (succeeds webm)].

(** ** The status graph

    Which [status] a turn may leave, given the one it found. *)
Definition status_after_failure (error : Thrown) : RecordingStatus :=
  if is_NotAllowedError error then permission_denied else idle.

(** The error a settlement fails with, if it fails. *)
Definition failure_of (o : Settlement) : option Thrown :=
  match o with
  | rejects error | ctor_throws error | start_throws _ error => Some error
  | succeeds _ => None
  end.

Definition Thrown_eqb (a b : Thrown) : bool :=
  match a, b with
  | DOMException m, DOMException n => String.eqb m n
  | JsError m, JsError n => String.eqb m n
  | _, _ => false
  end.

(** The [status] a turn leaves, from the [status] it found and from
    whether it ended in an exception: a failed start gives
    [permission_denied] exactly for the [DOMException] named
    [NotAllowedError]. *)
Definition next_status (e : Event) (a : RecordingStatus)
    (threw : option Thrown) : RecordingStatus :=
  match e with
  | call_startRecording | call_stopRecording | ev_dataavailable _ _ => a
  | settle o =>
      match failure_of o with
      | None => recording
      | Some error =>
          if Thrown_eqb error (DOMException "NotAllowedError")
          then permission_denied else idle
      end
  | call_pauseRecording =>
      match threw with
      | Some _ => a
      | None => if RecordingStatus_eqb a recording then paused else a
      end
  | call_resumeRecording =>
      match threw with
      | Some _ => a
      | None => if RecordingStatus_eqb a paused then recording else a
      end
  | call_reset => idle
  | ev_stop _ =>
      match threw with
      | Some _ => a
      | None => stopped
      end
  end.

(** The number of completion events in a trace. *)
Definition completions (tr : list Event) : nat :=
  length (List.filter (fun e => match e with ev_stop _ => true | _ => false end) tr).

(** ** [MediaRecorderComponent]

    The component (lines 120-251, and its later revision at lines 372-519)
    renders a list of elements from [status], its own
    [isPlayingFinishedAudio] flag and [mediaBlobUrl], and wires clicks to
    the hook's commands. *)

(** The buttons, by what their [onClick] does. *)
Inductive Control :=
| StartRecording | PauseRecording | ResumeRecording | StopRecording
| PlayRecording | PausePlayback.

Inductive Element :=
| PermissionDeniedText            (* <Text color="red.500">Permission denied ...</Text> *)
| Button (c : Control)
| StatusText (msg : string)       (* later revision only *)
| RecordAgain                     (* later revision only: onClick={reset} *)
| Audio (src : nat).              (* <audio ref={audioRef} src={mediaBlobUrl} ... /> *)

(** Calls made on the [<audio>] element through [audioRef]. *)
Inductive AudioCall := audio_play | audio_pause.

Record Component := {
  hook : St;
  isPlayingFinishedAudio : bool;    (* useState(false) *)
  audioCalls : list AudioCall
}.

Definition mounted : Component :=
  {| hook := init; isPlayingFinishedAudio := false; audioCalls := [] |}.

Definition with_hook (s : St) (k : Component) : Component :=
  {| hook := s; isPlayingFinishedAudio := isPlayingFinishedAudio k;
     audioCalls := audioCalls k |}.

(** The children of [<ButtonGroup>] (lines 157-246). *)
Definition buttonGroup (status : RecordingStatus) (isPlaying : bool) : list Element :=
  let isRecording := RecordingStatus_eqb status recording in
  let isPaused := RecordingStatus_eqb status paused in
  let isStopped := RecordingStatus_eqb status stopped in
  (if RecordingStatus_eqb status permission_denied
   then [PermissionDeniedText] else []) ++
  (if isRecording then [Button PauseRecording]
   else if isPaused then [Button ResumeRecording]
   else if negb isStopped then [Button StartRecording] else []) ++
  (if isStopped
   then (if negb isPlaying then [Button PlayRecording] else [Button PausePlayback])
   else []) ++
  (if isRecording || isPaused then [Button StopRecording] else []).

(** [{mediaBlobUrl && <audio ... />}]. *)
Definition audioElement (url : option nat) : list Element :=
  match url with
  | Some src => [Audio src]
  | None => []
  end.

(** The component as first written (lines 141-250). *)
Definition render (k : Component) : list Element :=
  buttonGroup (status (hook k)) (isPlayingFinishedAudio k) ++
  audioElement (mediaBlobUrl (hook k)).

(** The status line of the later revision (lines 493-503). *)
Definition statusText (status : RecordingStatus) : list Element :=
  if RecordingStatus_eqb status permission_denied then []
  else [StatusText
          (if RecordingStatus_eqb status recording then "Recording..."
           else if RecordingStatus_eqb status paused then "Paused"
           else if RecordingStatus_eqb status stopped then "Recording finished"
           else "Record audio through your microphone.")].

(** The later revision (lines 393-518): the same buttons, then the status
    line, the record-again link, and the audio element. *)
Definition render_again (k : Component) : list Element :=
  buttonGroup (status (hook k)) (isPlayingFinishedAudio k) ++
  statusText (status (hook k)) ++
  (if RecordingStatus_eqb (status (hook k)) stopped then [RecordAgain] else []) ++
  audioElement (mediaBlobUrl (hook k)).

(** [audioRef.current?.play()] and [audioRef.current?.pause()]: the ref holds
    the element when it is rendered, [null] otherwise. *)
Definition audio_call (c : AudioCall) (k : Component) : list AudioCall :=
  match mediaBlobUrl (hook k) with
  | Some _ => audioCalls k ++ [c]
  | None => audioCalls k
  end.

(** The [onClick] of each button. *)
Definition onClick (c : Control) (k : Component) : Component :=
  match c with
  | StartRecording => with_hook (final (startRecording_call component_props (hook k))) k
  | PauseRecording => with_hook (final (pauseRecording (hook k))) k
  | ResumeRecording => with_hook (final (resumeRecording (hook k))) k
  | StopRecording => with_hook (final (stopRecording (hook k))) k
  | PlayRecording =>
      {| hook := hook k; isPlayingFinishedAudio := true;
         audioCalls := audio_call audio_play k |}
  | PausePlayback =>
      {| hook := hook k; isPlayingFinishedAudio := false;
         audioCalls := audio_call audio_pause k |}
  end.

Definition Element_eqb (a b : Element) : bool :=
  match a, b with
  | PermissionDeniedText, PermissionDeniedText => true
  | Button c, Button d =>
      match c, d with
      | StartRecording, StartRecording | PauseRecording, PauseRecording
      | ResumeRecording, ResumeRecording | StopRecording, StopRecording
      | PlayRecording, PlayRecording | PausePlayback, PausePlayback => true
      | _, _ => false
      end
  | StatusText m, StatusText n => String.eqb m n
  | RecordAgain, RecordAgain => true
  | Audio u, Audio v => Nat.eqb u v
  | _, _ => false
  end.

(** What can happen to a mounted component: the user clicks an element that
    is on screen, or the host settles a request or fires a recorder event. *)
Inductive UiEvent :=
| ui_click (el : Element)
| ui_host (e : Event).

Definition is_host_event (e : Event) : bool :=
  match e with
  | settle _ | ev_dataavailable _ _ | ev_stop _ => true
  | _ => false
  end.

Definition ui_step (view : Component -> list Element) (k : Component)
    (e : UiEvent) : option Component :=
  match e with
  | ui_click el =>
      if existsb (Element_eqb el) (view k) then
        match el with
        | Button c => Some (onClick c k)
        | RecordAgain => Some (with_hook (final (reset (hook k))) k)
        | _ => None
        end
      else None
  | ui_host e =>
      if is_host_event e then
        match step component_props (hook k) e with
        | Some s' => Some (with_hook s' k)
        | None => None
        end
      else None
  end.

Fixpoint ui_run (view : Component -> list Element) (k : Component)
    (tr : list UiEvent) : option Component :=
  match tr with
  | [] => Some k
  | e :: tr' =>
      match ui_step view k e with
      | Some k' => ui_run view k' tr'
      | None => None
      end
  end.

(** ** The earlier component, without pause

    The revision of [MediaRecorderComponent] that keeps the recorder logic
    inline (38 lines from [const startRecording] to the end of
    [stopRecording]).  It has the same cells, so it runs on the same
    store. *)

(** Its [onstop] handler: [onRecordEnd] is a required prop, the same
    caller function as in [component_props]. *)
Definition onstop_inline : M unit :=
  chunks <- gets audioChunksRef ;;
  cur <- deref mediaRecorderRef ;;
  m <- the_recorder cur ;;
  let audioBlob := new_Blob chunks (mr_mimeType m) in
  audioUrl <- createObjectURL audioBlob ;;
  setMediaBlobUrl (Some audioUrl) ;;
  call_onStop (onStop_throws component_props) audioBlob ;;
  modify (set_audioChunksRef []) ;;
  setStatus stopped.

(** Its [startRecording], first turn: [getUserMedia({ audio: true })]. *)
Definition startRecording_inline_call : M unit := request_getUserMedia true.

(** Second turn; the [catch] reports every error as a refusal. *)
Definition startRecording_inline_resume (o : Settlement) : M unit :=
  try_catch
    (stream <- await_getUserMedia o ;;
     modify (set_streamRef (Some stream)) ;;
     mr <- new_MediaRecorder stream (granted_mimeType o) (ctor_error o) ;;
     modify (set_mediaRecorderRef (Some mr)) ;;
     cur <- deref mediaRecorderRef ;;
     update_recorder cur with_ondataavailable ;;
     cur <- deref mediaRecorderRef ;;
     update_recorder cur with_onstop ;;
     cur <- deref mediaRecorderRef ;;
     mr_start cur (start_error o) ;;
     setStatus recording)
    (fun error =>
       console_error error ;;
       setStatus permission_denied).

(** Its [stopRecording]: only from [recording]. *)
Definition stopRecording_inline : M unit :=
  mr <- gets mediaRecorderRef ;;
  st <- getStatus ;;
  match mr with
  | Some cur =>
      if RecordingStatus_eqb st recording then
        mr_stop cur ;;
        sr <- gets streamRef ;;
        match sr with
        | Some stream => stopTracks stream
        | None => ret tt
        end
      else ret tt
  | None => ret tt
  end.

(** It has no pause, resume or reset; those turns do not exist for it. *)
Definition handle_inline (e : Event) : option (M unit) :=
  match e with
  | call_startRecording => Some startRecording_inline_call
  | settle o =>
      Some (modify (fun s => set_pendingGetUserMedia (tail (pendingGetUserMedia s)) s) ;;
            startRecording_inline_resume o)
  | call_stopRecording => Some stopRecording_inline
  | ev_dataavailable r data =>
      Some (m <- the_recorder r ;;
            if mr_ondataavailable m then ondataavailable data else ret tt)
  | ev_stop r =>
      Some (update_recorder r (with_stopQueued false) ;;
            m <- the_recorder r ;;
            if mr_onstop m then onstop_inline else ret tt)
  | call_pauseRecording | call_resumeRecording | call_reset => None
  end.

Definition step_inline (s : St) (e : Event) : option St :=
  match handle_inline e with
  | Some h => if enabled s e then Some (final (h s)) else None
  | None => None
  end.

Fixpoint run_inline (s : St) (tr : list Event) : option St :=
  match tr with
  | [] => Some s
  | e :: tr' =>
      match step_inline s e with
      | Some s' => run_inline s' tr'
      | None => None
      end
  end.

(** The one button of the earlier component:
    [onClick={status === "recording" ? stopRecording : startRecording}]. *)
Definition toggle_inline : M unit :=
  st <- getStatus ;;
  if RecordingStatus_eqb st recording then stopRecording_inline
  else startRecording_inline_call.

(** Whether every failure in a trace is a permission refusal. *)
Definition only_refusals (tr : list Event) : bool :=
  forallb (fun e =>
             match e with
             | settle o =>
                 match failure_of o with
                 | Some error => is_NotAllowedError error
                 | None => true
                 end
             | _ => true
             end) tr.

(** Two mounted components: one capturing, one with a finished take. *)
Definition capturing_component : Component :=
  {| hook := store_after capturing; isPlayingFinishedAudio := false;
     audioCalls := [] |}.

Definition finished_component : Component :=
  {| hook := store_after (scenarioA ++ [ev_stop 0]);
     isPlayingFinishedAudio := false; audioCalls := [] |}.

(** A finished take left playing, then retaken through the record-again
    link of the later revision and finished again. *)
Definition retake_clicks : list UiEvent :=
  [ui_click RecordAgain; ui_click (Button StartRecording);
   ui_host (settle (succeeds webm)); ui_click (Button StopRecording);
   ui_host (ev_stop 1)].

Definition retaken_component : Component :=
  default mounted
    (ui_run render_again (onClick PlayRecording finished_component) retake_clicks).

(** ** Tactics *)

(** Case analysis on the innermost [match] of the goal first, so that the
    branches of a handler are met in the order the handler takes them. *)
Ltac inner_match :=
  match goal with
  | |- context [match ?x with _ => _ end] =>
      lazymatch x with
      | context [match _ with _ => _ end] => fail
      | _ => destruct x eqn:?
      end
  end.

Ltac js_unfold :=
  unfold handle, startRecording_call, request_getUserMedia, stopRecording,
    pauseRecording, resumeRecording, reset, ondataavailable, onstop,
    mr_stop, mr_pause, mr_resume, stopTracks, createObjectURL, call_onStop,
    the_recorder, update_recorder, deref, getStatus, setStatus,
    setMediaBlobUrl, gets, modify, bind, ret, throw.

Ltac js_cases := js_unfold; cbn; repeat (inner_match; cbn).

(** * Properties *)

(** ** List facts used for host objects *)

Lemma lookup_snoc {A} (l : list A) (x : A) : (l ++ [x]) !! length l = Some x.
Proof. induction l as [|a l IH]; [reflexivity | exact IH]. Qed.

Lemma alter_snoc {A} (f : A -> A) (l : list A) (x : A) :
  alter f (length l) (l ++ [x]) = l ++ [f x].
Proof. induction l as [|a l IH]; [reflexivity | cbn; f_equal; exact IH]. Qed.

Section Properties.

Variable props : UseReactMediaRecorderProps.

(** ** What the second turn of [startRecording] computes *)

Lemma startRecording_resume_succeeds (mimeType : string) (s : St) :
  startRecording_resume (succeeds mimeType) s = Ret tt (started mimeType s).
Proof.
  unfold startRecording_resume, try_catch, bind, modify, deref, update_recorder,
    mr_start, the_recorder, setStatus, modify, bind. cbn.
  rewrite !alter_snoc. cbn. rewrite lookup_snoc. cbn.
  rewrite alter_snoc. reflexivity.
Qed.

Lemma startRecording_resume_rejects (error : Thrown) (s : St) :
  startRecording_resume (rejects error) s = Ret tt (caught error s).
Proof.
  unfold startRecording_resume, try_catch, bind, caught. cbn.
  destruct (is_NotAllowedError error); reflexivity.
Qed.

Lemma startRecording_resume_ctor_throws (error : Thrown) (s : St) :
  startRecording_resume (ctor_throws error) s =
  Ret tt (caught error
            (set_streamRef (Some (length (streams s)))
               (set_streams (streams s ++ [{| trackStops := 0 |}]) s))).
Proof.
  unfold startRecording_resume, try_catch, bind, caught. cbn.
  destruct (is_NotAllowedError error); reflexivity.
Qed.

Lemma startRecording_resume_start_throws (mimeType : string) (error : Thrown) (s : St) :
  startRecording_resume (start_throws mimeType error) s =
  Ret tt (caught error
            (set_recorders
               (recorders s ++
                  [{| mr_stream := length (streams s); mr_state := rs_inactive;
                      mr_mimeType := mimeType; mr_ondataavailable := true;
                      mr_onstop := true; mr_stopQueued := false |}])
               (set_mediaRecorderRef (Some (length (recorders s)))
                  (set_streamRef (Some (length (streams s)))
                     (set_streams (streams s ++ [{| trackStops := 0 |}]) s))))).
Proof.
  unfold startRecording_resume, try_catch, bind, caught, modify, deref,
    update_recorder, mr_start, console_error, setStatus, modify. cbn.
  rewrite !alter_snoc. cbn.
  destruct (is_NotAllowedError error); reflexivity.
Qed.

(** ** Invariants of reachable stores *)

Lemma Inv_init : Inv init.
Proof.
  split; cbn; try congruence; try lia; try (intros []; congruence).
  constructor.
Qed.

(** Writes that keep the invariant. *)

Lemma Inv_set_status (v : RecordingStatus) (s : St) :
  Inv s ->
  (v <> idle -> v <> permission_denied -> is_Some (mediaRecorderRef s)) ->
  (v = stopped -> is_Some (mediaBlobUrl s)) ->
  Inv (set_status v s).
Proof. intros [] H1 H2. split; cbn; auto. Qed.

Lemma Inv_set_audioChunksRef (v : list Blob) (s : St) :
  Inv s -> Inv (set_audioChunksRef v s).
Proof. intros []. split; cbn; auto. Qed.

Lemma Inv_set_onStopCalls (v : list Blob) (s : St) :
  Inv s -> Inv (set_onStopCalls v s).
Proof. intros []. split; cbn; auto. Qed.

Lemma Inv_set_console (v : list Thrown) (s : St) :
  Inv s -> Inv (set_console v s).
Proof. intros []. split; cbn; auto. Qed.

Lemma Inv_set_pendingGetUserMedia (v : list bool) (s : St) :
  Inv s -> Inv (set_pendingGetUserMedia v s).
Proof. intros []. split; cbn; auto. Qed.

Lemma Inv_clear_mediaBlobUrl (s : St) :
  Inv s -> status s <> stopped -> Inv (set_mediaBlobUrl None s).
Proof.
  intros [] Hst. split; cbn; auto; try congruence.
Qed.

Lemma Inv_mint_mediaBlobUrl (blob : Blob) (s : St) :
  Inv s ->
  Inv (set_mediaBlobUrl (Some (length (blobUrlStore s)))
         (set_blobUrlStore (blobUrlStore s ++ [blob]) s)).
Proof.
  intros []. split; cbn; auto.
  intros u [= <-]. rewrite length_app. cbn. lia.
Qed.

Lemma Inv_set_streams (l : list MediaStream) (s : St) :
  Inv s -> length l = length (streams s) -> Inv (set_streams l s).
Proof.
  intros [] Hl. split; cbn; auto.
  intros j Hj. rewrite Hl. auto.
Qed.

Lemma Inv_alter_recorders (f : MediaRecorder -> MediaRecorder) (r : nat) (s : St) :
  Inv s ->
  (forall m, recorders s !! r = Some m ->
             handlers_installed m -> handlers_installed (f m)) ->
  Inv (set_recorders (alter f r (recorders s)) s).
Proof.
  intros [] Hf. split; cbn; auto.
  - intros j Hj. rewrite length_alter. auto.
  - rewrite length_alter. auto.
  - apply Forall_alter; assumption.
Qed.

Lemma Inv_caught (error : Thrown) (s : St) : Inv s -> Inv (caught error s).
Proof.
  intros HI. unfold caught. apply Inv_set_status.
  - by apply Inv_set_console.
  - destruct (is_NotAllowedError error); congruence.
  - destruct (is_NotAllowedError error); congruence.
Qed.

Lemma Inv_new_stream (s : St) :
  Inv s ->
  Inv (set_streamRef (Some (length (streams s)))
         (set_streams (streams s ++ [{| trackStops := 0 |}]) s)).
Proof.
  intros []. split; cbn; auto.
  intros i [= <-]. rewrite length_app. cbn. lia.
Qed.

Lemma Inv_new_recorder (m : MediaRecorder) (s : St) :
  Inv s -> is_Some (streamRef s) -> handlers_installed m ->
  Inv (set_recorders (recorders s ++ [m])
         (set_mediaRecorderRef (Some (length (recorders s))) s)).
Proof.
  intros [] Hs Hm. split; cbn; auto.
  - intros r [= <-]. rewrite length_app. cbn. lia.
  - apply Forall_app. split; [assumption | by constructor].
Qed.

Lemma Inv_started (mimeType : string) (s : St) : Inv s -> Inv (started mimeType s).
Proof.
  intros HI. unfold started. apply Inv_set_status.
  - apply (Inv_new_recorder _ _ (Inv_new_stream s HI)); cbn; [eauto|].
    intros _. cbn. auto.
  - cbn. eauto.
  - discriminate.
Qed.

Lemma handlers_installed_at (s : St) (r : nat) (m : MediaRecorder) :
  Inv s -> recorders s !! r = Some m -> handlers_installed m.
Proof. intros [] Hm. eapply Forall_lookup_1; eassumption. Qed.

Lemma Inv_reset (s : St) : Inv s -> Inv (final (reset s)).
Proof.
  intros HI. js_cases.
  apply Inv_set_audioChunksRef, Inv_clear_mediaBlobUrl; [|discriminate].
  apply Inv_set_status; [assumption | congruence | discriminate].
Qed.

Lemma Inv_stopRecording (s : St) : Inv s -> Inv (final (stopRecording s)).
Proof.
  intros HI. js_cases; try assumption.
  all: try (apply Inv_set_streams; [|by rewrite length_alter]); try assumption.
  all: apply Inv_alter_recorders; [assumption|].
  all: intros m' Hm' Hh; unfold handlers_installed in *; cbn; intros _;
    apply Hh; unfold mr_active; replace m' with m by congruence;
    rewrite Heqr; reflexivity.
Qed.

Lemma Inv_pauseRecording (s : St) : Inv s -> Inv (final (pauseRecording s)).
Proof.
  intros HI. js_cases; try assumption.
  all: apply Inv_set_status; [| intros; cbn; rewrite Heqo; eauto | discriminate].
  2: assumption.
  apply Inv_alter_recorders; [assumption|].
  intros m' Hm' Hh. unfold handlers_installed in *. cbn. intros _.
  apply Hh. unfold mr_active. replace m' with m by congruence.
  rewrite Heqr. reflexivity.
Qed.

Lemma Inv_resumeRecording (s : St) : Inv s -> Inv (final (resumeRecording s)).
Proof.
  intros HI. js_cases; try assumption.
  all: apply Inv_set_status; [| intros; cbn; rewrite Heqo; eauto | discriminate].
  1: assumption.
  apply Inv_alter_recorders; [assumption|].
  intros m' Hm' Hh. unfold handlers_installed in *. cbn. intros _.
  apply Hh. unfold mr_active. replace m' with m by congruence.
  rewrite Heqr. reflexivity.
Qed.

Lemma Inv_ondataavailable (data : Blob) (s : St) :
  Inv s -> Inv (final (ondataavailable data s)).
Proof. intros HI. js_cases. by apply Inv_set_audioChunksRef. Qed.

Lemma Inv_onstop (s : St) : Inv s -> Inv (final (onstop props s)).
Proof.
  intros HI. js_cases; try assumption.
  all: try (apply Inv_set_status; [| intros; cbn; rewrite Heqo; eauto | cbn; eauto]).
  all: try apply Inv_set_audioChunksRef; try apply Inv_set_onStopCalls.
  all: by apply Inv_mint_mediaBlobUrl.
Qed.

Lemma Inv_startRecording_resume (o : Settlement) (s : St) :
  Inv s -> Inv (final (startRecording_resume o s)).
Proof.
  intros HI. destruct o as [error | error | mimeType error | mimeType].
  - rewrite startRecording_resume_rejects. by apply Inv_caught.
  - rewrite startRecording_resume_ctor_throws. by apply Inv_caught, Inv_new_stream.
  - rewrite startRecording_resume_start_throws. apply Inv_caught.
    apply (Inv_new_recorder _ _ (Inv_new_stream s HI)); cbn; [eauto|].
    intros Hact. discriminate Hact.
  - rewrite startRecording_resume_succeeds. by apply Inv_started.
Qed.

Lemma Inv_step (s s' : St) (e : Event) :
  Inv s -> step props s e = Some s' -> Inv s'.
Proof.
  intros HI. unfold step. destruct (enabled s e) eqn:En; [|discriminate].
  intros [= <- ]. destruct e as [ | o | | | | | r data | r ]; cbn [handle].
  - by apply Inv_set_pendingGetUserMedia.
  - apply (Inv_startRecording_resume o _ (Inv_set_pendingGetUserMedia _ s HI)).
  - by apply Inv_stopRecording.
  - by apply Inv_pauseRecording.
  - by apply Inv_resumeRecording.
  - by apply Inv_reset.
  - unfold bind, the_recorder. destruct (recorders s !! r); [|assumption].
    destruct (mr_ondataavailable m); [|assumption].
    by apply Inv_ondataavailable.
  - unfold bind at 1. unfold update_recorder at 1. unfold modify at 1.
    assert (Inv (set_recorders (alter (with_stopQueued false) r (recorders s)) s))
      as HI'.
    { apply Inv_alter_recorders; [assumption|].
      intros m _ Hh. unfold handlers_installed, mr_active in *. cbn.
      intros Hact. apply Hh. destruct (mr_state m); [discriminate | done | done]. }
    unfold bind, the_recorder.
    destruct (recorders _ !! r); [|assumption].
    destruct (mr_onstop m); [|assumption].
    by apply Inv_onstop.
Qed.

(** ** The two recorder events, computed *)

Lemma onstop_finalized (s : St) (cur : nat) (m : MediaRecorder) :
  mediaRecorderRef s = Some cur -> recorders s !! cur = Some m ->
  onstop props s =
  match onStop_outcome props s with
  | None => Ret tt (finalized props (mr_mimeType m) s)
  | Some error => Exc error (finalized props (mr_mimeType m) s)
  end.
Proof.
  intros Hcur Hm. unfold finalized, onStop_outcome. js_unfold. cbn.
  rewrite Hcur, Hm. destruct (onStop props); [|reflexivity]. cbn.
  destruct (onStop_throws props (length (onStopCalls s))); reflexivity.
Qed.

Lemma current_recorder (s : St) :
  Inv s -> 0 < length (recorders s) ->
  exists cur m, mediaRecorderRef s = Some cur /\ recorders s !! cur = Some m.
Proof.
  intros HI Hlen. destruct (inv_recorders s HI Hlen) as [cur Hcur].
  destruct (lookup_lt_is_Some_2 (recorders s) cur) as [m Hm].
  { by apply inv_recorder_ref. }
  eauto.
Qed.

Lemma step_ev_stop (s : St) (r : nat) (m : MediaRecorder) :
  Inv s -> recorders s !! r = Some m -> mr_stopQueued m = true ->
  exists cur mc,
    mediaRecorderRef s = Some cur /\ recorders s !! cur = Some mc /\
    step props s (ev_stop r) = Some (finalized props (mr_mimeType mc) (dequeued r s)).
Proof.
  intros HI Hm Hq.
  destruct (current_recorder s HI) as (cur & mc & Hcur & Hmc).
  { eapply Nat.le_lt_trans; [apply Nat.le_0_l | eapply lookup_lt_Some, Hm]. }
  exists cur, mc. split; [assumption|]. split; [assumption|].
  unfold step. cbn [enabled]. rewrite Hm, Hq. f_equal.
  cbn [handle]. unfold bind at 1. unfold update_recorder at 1. unfold modify at 1.
  fold (dequeued r s). unfold bind at 1. unfold the_recorder at 1.
  assert (recorders (dequeued r s) !! r = Some (with_stopQueued false m)) as ->.
  { cbn. rewrite list_lookup_alter_eq, Hm. reflexivity. }
  assert (mr_onstop m = true) as Hon.
  { apply (handlers_installed_at s r m HI Hm). rewrite Hq. apply orb_true_r. }
  cbn [mr_onstop with_stopQueued]. rewrite Hon.
  assert (recorders (dequeued r s) !! cur =
          Some (if decide (r = cur) then with_stopQueued false mc else mc)) as Hmc'.
  { cbn. destruct (decide (r = cur)) as [->|Hne].
    - by rewrite list_lookup_alter_eq, Hmc.
    - by rewrite list_lookup_alter_ne. }
  rewrite (onstop_finalized (dequeued r s) cur _ Hcur Hmc').
  destruct (decide (r = cur)), (onStop_outcome props (dequeued r s)); reflexivity.
Qed.

Lemma step_ev_dataavailable (s : St) (r : nat) (m : MediaRecorder) (data : Blob) :
  Inv s -> recorders s !! r = Some m -> mr_active m || mr_stopQueued m = true ->
  step props s (ev_dataavailable r data) =
  Some (set_audioChunksRef (audioChunksRef s ++ [data]) s).
Proof.
  intros HI Hm Hact. unfold step. cbn [enabled]. rewrite Hm, Hact.
  cbn [handle]. unfold bind, the_recorder. rewrite Hm.
  destruct (handlers_installed_at s r m HI Hm Hact) as [-> _]. reflexivity.
Qed.

Lemma run_app (s : St) (tr1 tr2 : list Event) :
  run props s (tr1 ++ tr2) =
  match run props s tr1 with
  | Some s' => run props s' tr2
  | None => None
  end.
Proof.
  revert s. induction tr1 as [|e tr1 IH]; intros s; cbn; [reflexivity|].
  destruct (step props s e); [apply IH | reflexivity].
Qed.

Lemma Inv_run (tr : list Event) (s s' : St) :
  Inv s -> run props s tr = Some s' -> Inv s'.
Proof.
  revert s. induction tr as [|e tr IH]; intros s HI; cbn.
  - intros [= <-]. assumption.
  - destruct (step props s e) as [s1|] eqn:Hstep; [|discriminate].
    apply IH. eapply Inv_step; eassumption.
Qed.

Lemma reachable_Inv (s : St) : reachable props s -> Inv s.
Proof. intros [tr Htr]. eapply Inv_run; [apply Inv_init | eassumption]. Qed.

(** ** The fragment buffer along a trace *)

Lemma clears_fragment (e : Event) : clears e = true -> fragment e = [].
Proof. by destruct e. Qed.

Lemma fragments_since_clear_no_clear (tr : list Event) :
  existsb clears tr = false -> fragments_since_clear tr = flat_map fragment tr.
Proof.
  destruct tr as [|e tr]; [reflexivity|]. cbn [existsb fragments_since_clear].
  intros H. apply orb_false_elim in H as [_ ->]. reflexivity.
Qed.

(** When no completion is cut short, the fragments pending after a trace
    are those since its last completion or reset. *)
Lemma pending_fragments_all_return (n : nat) (buf : list Blob) (tr : list Event) :
  (forall k, completion_returns props k = true) ->
  pending_fragments props n buf tr =
  if existsb clears tr then fragments_since_clear tr
  else buf ++ flat_map fragment tr.
Proof.
  intros Hret. revert n buf.
  induction tr as [|e tr IH]; intros n buf.
  - cbn. by rewrite app_nil_r.
  - destruct e; cbn [pending_fragments existsb clears fragments_since_clear
                       flat_map fragment orb app];
      rewrite ?Hret, IH; destruct (existsb clears tr) eqn:Hc;
      rewrite ?app_nil_l, <- ?app_assoc; reflexivity.
Qed.

Lemma step_audioChunksRef (s s' : St) (e : Event) :
  Inv s -> step props s e = Some s' ->
  audioChunksRef s' =
  match e with
  | ev_dataavailable _ data => audioChunksRef s ++ [data]
  | call_reset => []
  | ev_stop _ =>
      match onStop_outcome props s with
      | None => []
      | Some _ => audioChunksRef s
      end
  | _ => audioChunksRef s
  end.
Proof.
  intros HI Hstep.
  destruct e as [ | o | | | | | r data | r ].
  - injection Hstep as <-. reflexivity.
  - unfold step in Hstep. destruct (enabled s (settle o)); [|discriminate].
    injection Hstep as <-. cbn [handle]. unfold bind, modify.
    destruct o; rewrite ?startRecording_resume_rejects,
      ?startRecording_resume_ctor_throws, ?startRecording_resume_start_throws,
      ?startRecording_resume_succeeds; reflexivity.
  - injection Hstep as <-. cbn [handle]. js_cases; reflexivity.
  - injection Hstep as <-. cbn [handle]. js_cases; reflexivity.
  - injection Hstep as <-. cbn [handle]. js_cases; reflexivity.
  - injection Hstep as <-. reflexivity.
  - pose proof Hstep as Hen. unfold step in Hen. cbn [enabled] in Hen.
    destruct (recorders s !! r) as [m|] eqn:Hm; [|discriminate].
    destruct (mr_active m || mr_stopQueued m) eqn:Hact; [|discriminate].
    rewrite (step_ev_dataavailable s r m data HI Hm Hact) in Hstep.
    injection Hstep as <-. reflexivity.
  - pose proof Hstep as Hen. unfold step in Hen. cbn [enabled] in Hen.
    destruct (recorders s !! r) as [m|] eqn:Hm; [|discriminate].
    destruct (mr_stopQueued m) eqn:Hq; [|discriminate].
    destruct (step_ev_stop s r m HI Hm Hq) as (cur & mc & _ & _ & Heq).
    rewrite Heq in Hstep. injection Hstep as <-.
    unfold finalized, onStop_outcome. cbn [onStopCalls dequeued set_recorders].
    destruct (onStop props); [|reflexivity].
    destruct (onStop_throws props (length (onStopCalls s))); reflexivity.
Qed.

Lemma step_onStopCalls_length (s s' : St) (e : Event) :
  Inv s -> step props s e = Some s' ->
  length (onStopCalls s') =
  match e with
  | ev_stop _ => if onStop props then S (length (onStopCalls s))
                 else length (onStopCalls s)
  | _ => length (onStopCalls s)
  end.
Proof.
  intros HI Hstep.
  destruct e as [ | o | | | | | r data | r ].
  - injection Hstep as <-. reflexivity.
  - unfold step in Hstep. destruct (enabled s (settle o)); [|discriminate].
    injection Hstep as <-. cbn [handle]. unfold bind, modify.
    destruct o; rewrite ?startRecording_resume_rejects,
      ?startRecording_resume_ctor_throws, ?startRecording_resume_start_throws,
      ?startRecording_resume_succeeds; reflexivity.
  - injection Hstep as <-. cbn [handle]. js_cases; reflexivity.
  - injection Hstep as <-. cbn [handle]. js_cases; reflexivity.
  - injection Hstep as <-. cbn [handle]. js_cases; reflexivity.
  - injection Hstep as <-. reflexivity.
  - unfold step in Hstep.
    destruct (enabled s (ev_dataavailable r data)); [|discriminate].
    injection Hstep as <-. cbn [handle]. js_cases; reflexivity.
  - pose proof Hstep as Hen. unfold step in Hen. cbn [enabled] in Hen.
    destruct (recorders s !! r) as [m|] eqn:Hm; [|discriminate].
    destruct (mr_stopQueued m) eqn:Hq; [|discriminate].
    destruct (step_ev_stop s r m HI Hm Hq) as (cur & mc & _ & _ & Heq).
    rewrite Heq in Hstep. injection Hstep as <-.
    unfold finalized, onStop_outcome. cbn [onStopCalls dequeued set_recorders].
    destruct (onStop props); [|reflexivity].
    destruct (onStop_throws props (length (onStopCalls s))); cbn;
      rewrite length_app; cbn; lia.
Qed.

Lemma completion_returns_outcome (s : St) (n : nat) :
  (onStop props = true -> length (onStopCalls s) = n) ->
  completion_returns props n =
  match onStop_outcome props s with None => true | Some _ => false end.
Proof.
  unfold completion_returns, onStop_outcome. intros Hn.
  destruct (onStop props); [|reflexivity]. by rewrite Hn.
Qed.

Lemma audioChunksRef_pending (tr : list Event) (s s' : St) (n : nat) :
  Inv s ->
  (onStop props = true -> length (onStopCalls s) = n) ->
  run props s tr = Some s' ->
  audioChunksRef s' = pending_fragments props n (audioChunksRef s) tr.
Proof.
  revert s n. induction tr as [|e tr IH]; intros s n HI Hn; cbn [run].
  - by intros [= <-].
  - destruct (step props s e) as [s1|] eqn:Hstep; [|discriminate]. intros Hrun.
    pose proof (step_audioChunksRef s s1 e HI Hstep) as Hbuf.
    pose proof (step_onStopCalls_length s s1 e HI Hstep) as Hlen.
    pose proof (Inv_step s s1 e HI Hstep) as HI1.
    destruct e; cbn [pending_fragments]; rewrite <- ?Hbuf;
      try (apply (IH s1 n HI1); [intros Hon; rewrite Hlen; by apply Hn | exact Hrun]).
    rewrite (completion_returns_outcome s n Hn).
    replace (if match onStop_outcome props s with None => true | Some _ => false end
             then [] else audioChunksRef s) with (audioChunksRef s1)
      by (rewrite Hbuf; by destruct (onStop_outcome props s)).
    apply (IH s1 (S n) HI1); [|exact Hrun].
    intros Hon. rewrite Hlen, Hon. f_equal. by apply Hn.
Qed.

Lemma audioChunksRef_run (tr : list Event) (s : St) :
  run props init tr = Some s ->
  audioChunksRef s = fragments_since_returned_clear props tr.
Proof.
  intros Hrun. unfold fragments_since_returned_clear.
  apply (audioChunksRef_pending tr init s 0 Inv_init); [done | exact Hrun].
Qed.

(** ** Segments of an execution, computed *)

Lemma set_audioChunksRef_same (s : St) :
  set_audioChunksRef (audioChunksRef s) s = s.
Proof. by destruct s. Qed.

Lemma run_fragments (s : St) (r : nat) (m : MediaRecorder) (fs : list Blob) :
  Inv s -> recorders s !! r = Some m -> mr_active m || mr_stopQueued m = true ->
  run props s (map (ev_dataavailable r) fs) =
  Some (set_audioChunksRef (audioChunksRef s ++ fs) s).
Proof.
  revert s. induction fs as [|data fs IH]; intros s HI Hm Hact.
  - cbn. by rewrite app_nil_r, set_audioChunksRef_same.
  - cbn [map run]. rewrite (step_ev_dataavailable s r m data HI Hm Hact).
    rewrite (IH _ (Inv_set_audioChunksRef _ s HI) Hm Hact).
    cbn. by rewrite <- app_assoc.
Qed.

Lemma finalized_fields (mimeType : string) (s : St) :
  onStop props = true ->
  let audioBlob := new_Blob (audioChunksRef s) mimeType in
  let s' := finalized props mimeType s in
  mediaBlobUrl s' = Some (length (blobUrlStore s)) /\
  blobUrlStore s' !! length (blobUrlStore s) = Some audioBlob /\
  onStopCalls s' = onStopCalls s ++ [audioBlob] /\
  (onStop_throws props (length (onStopCalls s)) = None ->
   status s' = stopped /\ audioChunksRef s' = []) /\
  (onStop_throws props (length (onStopCalls s)) <> None ->
   status s' = status s /\ audioChunksRef s' = audioChunksRef s).
Proof.
  intros Hon. unfold finalized, onStop_outcome. rewrite Hon.
  destruct (onStop_throws props (length (onStopCalls s))); cbn;
    (split; [reflexivity|]); (split; [apply lookup_snoc|]);
    (split; [reflexivity|]); split; intros H; try done.
Qed.

Lemma is_NotAllowedError_spec (error : Thrown) :
  is_NotAllowedError error = true <-> error = DOMException "NotAllowedError".
Proof.
  destruct error as [name | name]; cbn.
  - rewrite String.eqb_eq. split; congruence.
  - split; discriminate.
Qed.

Lemma run_fragments_stop (s : St) (r : nat) (m : MediaRecorder) (late : list Blob) :
  Inv s -> recorders s !! r = Some m -> mr_stopQueued m = true ->
  exists mimeType,
    run props s (map (ev_dataavailable r) late ++ [ev_stop r]) =
    Some (finalized props mimeType
            (dequeued r (set_audioChunksRef (audioChunksRef s ++ late) s))).
Proof.
  intros HI Hm Hq. rewrite run_app.
  rewrite (run_fragments s r m late HI Hm) by (rewrite Hq; apply orb_true_r).
  cbn [run].
  destruct (step_ev_stop (set_audioChunksRef (audioChunksRef s ++ late) s) r m)
    as (cur & mc & _ & _ & ->); [by apply Inv_set_audioChunksRef | done | done |].
  by exists (mr_mimeType mc).
Qed.

Lemma step_pause_capturing (s : St) (cur : nat) (m : MediaRecorder) :
  status s = recording -> mediaRecorderRef s = Some cur ->
  recorders s !! cur = Some m -> mr_state m = rs_recording ->
  step props s call_pauseRecording = Some (pause_done cur s).
Proof.
  intros Hst Hcur Hm Hrs. unfold step. cbn [enabled handle]. f_equal.
  js_unfold. cbn. rewrite Hcur, Hst. cbn. rewrite Hm. cbn. by rewrite Hrs.
Qed.

Lemma step_stop_active (s : St) (cur : nat) (m : MediaRecorder) :
  includes [recording; paused] (status s) = true ->
  mediaRecorderRef s = Some cur ->
  recorders s !! cur = Some m -> mr_state m <> rs_inactive ->
  step props s call_stopRecording = Some (stop_requested cur s).
Proof.
  intros Hst Hcur Hm Hrs. unfold step. cbn [enabled handle]. f_equal.
  unfold stop_requested. js_unfold. cbn. cbn in Hst. rewrite Hcur, Hst. cbn.
  rewrite Hm. cbn.
  destruct (mr_state m); [congruence | |]; cbn; by destruct (streamRef s).
Qed.

Lemma stop_requested_fields (cur : nat) (s : St) :
  let s' := stop_requested cur s in
  status s' = status s /\ audioChunksRef s' = audioChunksRef s /\
  onStopCalls s' = onStopCalls s /\ blobUrlStore s' = blobUrlStore s /\
  mediaBlobUrl s' = mediaBlobUrl s /\
  recorders s' =
    alter (fun m => with_stopQueued true (with_state rs_inactive m)) cur (recorders s).
Proof. unfold stop_requested. destruct (streamRef s); cbn; repeat split. Qed.

End Properties.

(** ** The scenarios of the specification, run *)

(** Scenario A: start, fragments [b1] and [b2], stop, completion. *)
Example scenarioA_runs :
  status <$> run component_props init (scenarioA ++ [ev_stop 0]) = Some stopped /\
  onStopCalls <$> run component_props init (scenarioA ++ [ev_stop 0]) =
    Some [{| blob_bytes := [x01; x02; x03]; blob_type := webm |}] /\
  fragments_since_clear scenarioA = [b1; b2].
Proof. vm_compute. repeat split. Qed.

(** Scenario B: start, pause, resume, one fragment, stop, completion. *)
Example scenarioB_runs :
  status <$> run component_props init capturing = Some recording /\
  status <$> run component_props init (capturing ++ [call_pauseRecording]) =
    Some paused /\
  status <$> run component_props init
               (capturing ++ [call_pauseRecording; call_resumeRecording]) =
    Some recording /\
  status <$> run component_props init
               (capturing ++ [call_pauseRecording; call_resumeRecording;
                              ev_dataavailable 0 b1; call_stopRecording; ev_stop 0]) =
    Some stopped /\
  onStopCalls <$> run component_props init
               (capturing ++ [call_pauseRecording; call_resumeRecording;
                              ev_dataavailable 0 b1; call_stopRecording; ev_stop 0]) =
    Some [b1].
Proof. vm_compute. repeat split. Qed.

(** Scenario C: the request is refused for a permission reason. *)
Example scenarioC_runs :
  run component_props init
    [call_startRecording; settle (rejects (DOMException "NotAllowedError"))] =
  Some (set_console [DOMException "NotAllowedError"]
          (set_status permission_denied init)).
Proof. vm_compute. reflexivity. Qed.

(** A [pause()] between [stop()] and the completion throws in the recorder
    and leaves [status] alone. *)
Example pause_while_finalizing_throws :
  thrown (pauseRecording (store_after pending_finalize)) = Some InvalidStateError /\
  final (pauseRecording (store_after pending_finalize)) = store_after pending_finalize.
Proof. vm_compute. by split. Qed.

(** * The claims *)

(** C7, as stated, fails: after a finished take, [reset()] nulls
    [mediaBlobUrl], but the object URL it held is still registered and
    still resolves to the artifact.  The reference is dropped, not
    released. *)
Lemma reset_leaves_url_registered :
  mediaBlobUrl <$> run component_props init (scenarioA ++ [ev_stop 0]) =
    Some (Some 0) /\
  status <$> run component_props init (scenarioA ++ [ev_stop 0; call_reset]) =
    Some idle /\
  mediaBlobUrl <$> run component_props init (scenarioA ++ [ev_stop 0; call_reset]) =
    Some None /\
  (fun s => blobUrlStore s !! 0) <$>
    run component_props init (scenarioA ++ [ev_stop 0; call_reset]) =
    Some (Some {| blob_bytes := [x01; x02; x03]; blob_type := webm |}).
Proof. vm_compute. repeat split. Qed.

(** C7, amended: from every prior store, [reset()] cannot throw and leaves
    [status = idle], an empty fragment buffer and [mediaBlobUrl = null];
    it releases nothing: every object URL that was registered stays
    registered and resolves to the same blob. *)
Theorem reset_yields_idle (s : St) :
  thrown (reset s) = None /\
  status (final (reset s)) = idle /\
  audioChunksRef (final (reset s)) = [] /\
  mediaBlobUrl (final (reset s)) = None /\
  (forall u, blobUrlStore (final (reset s)) !! u = blobUrlStore s !! u).
Proof. repeat split. Qed.

(** C8: when [status] is not [recording], [pauseRecording()] returns without
    changing anything in the store; when [status] is not [paused],
    [resumeRecording()] does. *)
Theorem pause_resume_noop (s : St) :
  (status s <> recording -> pauseRecording s = Ret tt s) /\
  (status s <> paused -> resumeRecording s = Ret tt s).
Proof.
  split; intros Hst.
  - unfold pauseRecording, bind, gets, getStatus, gets.
    destruct (mediaRecorderRef s); [|reflexivity].
    destruct (status s); try reflexivity. congruence.
  - unfold resumeRecording, bind, gets, getStatus, gets.
    destruct (mediaRecorderRef s); [|reflexivity].
    destruct (status s); try reflexivity. congruence.
Qed.

Lemma pause_resume_noop_witness :
  pauseRecording (store_after (capturing ++ [call_pauseRecording])) =
    Ret tt (store_after (capturing ++ [call_pauseRecording])) /\
  resumeRecording (store_after capturing) = Ret tt (store_after capturing).
Proof.
  split.
  - apply (proj1 (pause_resume_noop _)). vm_compute. discriminate.
  - apply (proj2 (pause_resume_noop _)). vm_compute. discriminate.
Defined.

(** C6: when the device-access request of a [startRecording()] fails, the
    second turn returns normally (nothing is thrown to the caller).  If the
    error is the [DOMException] named [NotAllowedError], [status] becomes
    [permission_denied]; for every other error it becomes [idle].  The
    error goes to the console only; no stream is opened, no recorder is
    created, and every other cell of the store is left as it was. *)
Theorem access_failure_handled (error : Thrown) (s : St) :
  let r := startRecording_resume (rejects error) s in
  thrown r = None /\
  (error = DOMException "NotAllowedError" -> status (final r) = permission_denied) /\
  (error <> DOMException "NotAllowedError" -> status (final r) = idle) /\
  streams (final r) = streams s /\
  recorders (final r) = recorders s /\
  streamRef (final r) = streamRef s /\
  mediaRecorderRef (final r) = mediaRecorderRef s /\
  audioChunksRef (final r) = audioChunksRef s /\
  mediaBlobUrl (final r) = mediaBlobUrl s /\
  blobUrlStore (final r) = blobUrlStore s /\
  onStopCalls (final r) = onStopCalls s /\
  console (final r) = console s ++ [error].
Proof.
  cbv zeta. rewrite startRecording_resume_rejects.
  split; [reflexivity|]. split; [|split].
  - intros Herr. apply is_NotAllowedError_spec in Herr.
    cbn. by rewrite Herr.
  - intros Herr. cbn. destruct (is_NotAllowedError error) eqn:Hc; [|reflexivity].
    by apply is_NotAllowedError_spec in Hc.
  - by repeat split.
Qed.

Lemma access_failure_handled_witness :
  status (final (startRecording_resume
                   (rejects (DOMException "NotAllowedError")) init)) =
    permission_denied /\
  status (final (startRecording_resume
                   (rejects (DOMException "NotFoundError")) (store_after capturing))) =
    idle /\
  status (final (startRecording_resume
                   (rejects (JsError "NotAllowedError")) (store_after capturing))) =
    idle.
Proof.
  split; [|split].
  - apply (access_failure_handled (DOMException "NotAllowedError") init).
    reflexivity.
  - apply (access_failure_handled (DOMException "NotFoundError")
             (store_after capturing)).
    discriminate.
  - apply (access_failure_handled (JsError "NotAllowedError")
             (store_after capturing)).
    discriminate.
Defined.

(** C10: [stopRecording()] never changes [status], whatever it was, so
    [status] keeps its value while the completion is pending; the only turn
    that takes [status] from another value to [stopped] is a recorder's
    [stop] event.  In a reachable store that event does set it when its
    handler runs to the end, that is unless the caller's callback throws;
    if it throws, [status] is left as it was. *)
Theorem stop_defers_status
    (props : UseReactMediaRecorderProps) (s s' : St) (e : Event) :
  status (final (stopRecording s)) = status s /\
  (step props s e = Some s' -> status s <> stopped -> status s' = stopped ->
   exists r, e = ev_stop r) /\
  (reachable props s -> forall r s'',
     step props s (ev_stop r) = Some s'' ->
     (onStop_outcome props s = None -> status s'' = stopped) /\
     (onStop_outcome props s <> None -> status s'' = status s)).
Proof.
  split; [|split].
  - js_cases; reflexivity.
  - intros Hstep Hns Hs'. destruct e as [ | o | | | | | r data | r ];
      try (injection Hstep as <-).
    + contradiction.
    + unfold step in Hstep. destruct (enabled s (settle o)); [|discriminate].
      injection Hstep as <-. revert Hs'. cbn [handle]. unfold bind, modify.
      destruct o; rewrite ?startRecording_resume_rejects,
        ?startRecording_resume_ctor_throws, ?startRecording_resume_start_throws,
        ?startRecording_resume_succeeds; cbn;
        try destruct (is_NotAllowedError error); discriminate.
    + revert Hs'. cbn [handle]. js_cases; congruence.
    + revert Hs'. cbn [handle]. js_cases; congruence.
    + revert Hs'. cbn [handle]. js_cases; congruence.
    + discriminate.
    + unfold step in Hstep.
      destruct (enabled s (ev_dataavailable r data)); [|discriminate].
      injection Hstep as <-. revert Hs'. cbn [handle]. js_cases; congruence.
    + by exists r.
  - intros Hreach r s'' Hstep. apply reachable_Inv in Hreach.
    pose proof Hstep as Hen. unfold step in Hen. cbn [enabled] in Hen.
    destruct (recorders s !! r) as [m|] eqn:Hm; [|discriminate].
    destruct (mr_stopQueued m) eqn:Hq; [|discriminate].
    destruct (step_ev_stop props s r m Hreach Hm Hq) as (cur & mc & _ & _ & Heq).
    rewrite Heq in Hstep. injection Hstep as <-.
    unfold finalized. cbn [onStop_outcome onStopCalls dequeued set_recorders].
    change (onStop_outcome props (dequeued r s)) with (onStop_outcome props s).
    destruct (onStop_outcome props s); split; intros H; try done.
    by destruct (onStop props).
Qed.

Lemma stop_defers_status_witness :
  status (final (stopRecording (store_after capturing))) = recording /\
  (exists r, ev_stop 0 = ev_stop r) /\
  status (store_after (pending_finalize ++ [ev_stop 0])) = stopped.
Proof.
  pose proof (stop_defers_status component_props (store_after pending_finalize)
                (store_after (pending_finalize ++ [ev_stop 0])) (ev_stop 0))
    as (_ & H2 & H3).
  split; [|split].
  - exact (proj1 (stop_defers_status component_props (store_after capturing)
                    init call_reset)).
  - apply H2; vm_compute; [reflexivity | discriminate | reflexivity].
  - apply (H3 (ex_intro _ pending_finalize eq_refl) 0); vm_compute; reflexivity.
Defined.

(** C1, as stated, fails when the caller's callback throws.  In the first
    take below the callback throws from inside the [onstop] handler: the
    store is left [recording] and the fragment is still in the buffer.  The
    artifact of the next take then carries that stale fragment in front of
    its own, although only [b2] arrived since the last completion. *)
Lemma throwing_callback_skips_clear :
  status <$> run throwing_props init first_take = Some recording /\
  audioChunksRef <$> run throwing_props init first_take = Some [b1] /\
  onStopCalls <$> run throwing_props init (first_take ++ next_take ++ [ev_stop 1]) =
    Some [{| blob_bytes := [x01; x02]; blob_type := webm |};
          {| blob_bytes := [x01; x02; x03]; blob_type := webm |}] /\
  fragments_since_clear (first_take ++ next_take) = [b2].
Proof. vm_compute. repeat split. Qed.

(** C1, amended: take any execution from the initial store, and let the
    completion event of a recorder fire next, with an [onStop] callback
    passed.  The event produces an artifact whose bytes are the
    concatenation, in arrival order, of the fragments delivered since the
    last [reset()] or the last completion whose callback returned; the
    artifact is registered under the new [mediaBlobUrl] and the callback is
    called once with it.  If the callback returns, the fragment buffer is
    emptied and [status] is [stopped]; if it throws, both are left as they
    were.  When the callback never throws, those fragments are the ones
    delivered since the last completion or [reset()]. *)
Theorem finalize_concatenates_fragments
    (props : UseReactMediaRecorderProps) (tr : list Event) (r : nat)
    (s s' : St) :
  onStop props = true ->
  run props init tr = Some s ->
  step props s (ev_stop r) = Some s' ->
  exists audioBlob audioUrl,
    blob_bytes audioBlob =
      concat (map blob_bytes (fragments_since_returned_clear props tr)) /\
    mediaBlobUrl s' = Some audioUrl /\
    blobUrlStore s' !! audioUrl = Some audioBlob /\
    onStopCalls s' = onStopCalls s ++ [audioBlob] /\
    (onStop_throws props (length (onStopCalls s)) = None ->
     status s' = stopped /\ audioChunksRef s' = []) /\
    (onStop_throws props (length (onStopCalls s)) <> None ->
     status s' = status s /\ audioChunksRef s' = audioChunksRef s) /\
    ((forall n, onStop_throws props n = None) ->
     fragments_since_returned_clear props tr = fragments_since_clear tr).
Proof.
  intros Hon Hrun Hstep.
  assert (Inv s) as HI by (apply (reachable_Inv props); by exists tr).
  pose proof Hstep as Hen. unfold step in Hen. cbn [enabled] in Hen.
  destruct (recorders s !! r) as [m|] eqn:Hm; [|discriminate].
  destruct (mr_stopQueued m) eqn:Hq; [|discriminate]. clear Hen.
  destruct (step_ev_stop props s r m HI Hm Hq) as (cur & mc & _ & _ & Heq).
  rewrite Heq in Hstep. injection Hstep as <-.
  destruct (finalized_fields props (mr_mimeType mc) (dequeued r s) Hon)
    as (Hurl & Hstore & Hcalls & Hret & Hthrow).
  exists (new_Blob (audioChunksRef s) (mr_mimeType mc)), (length (blobUrlStore s)).
  split; [cbn; by rewrite (audioChunksRef_run props tr s Hrun)|].
  split; [exact Hurl|]. split; [exact Hstore|]. split; [exact Hcalls|].
  split; [exact Hret|]. split; [exact Hthrow|].
  intros Hnever. unfold fragments_since_returned_clear.
  rewrite pending_fragments_all_return.
  - destruct (existsb clears tr) eqn:Hc; [reflexivity|].
    by rewrite fragments_since_clear_no_clear.
  - intros k. unfold completion_returns. by rewrite Hon, Hnever.
Qed.

Lemma finalize_concatenates_fragments_witness :
  exists audioBlob audioUrl,
    blob_bytes audioBlob =
      concat (map blob_bytes (fragments_since_returned_clear component_props scenarioA)) /\
    mediaBlobUrl (store_after (scenarioA ++ [ev_stop 0])) = Some audioUrl /\
    blobUrlStore (store_after (scenarioA ++ [ev_stop 0])) !! audioUrl =
      Some audioBlob /\
    onStopCalls (store_after (scenarioA ++ [ev_stop 0])) =
      onStopCalls (store_after scenarioA) ++ [audioBlob] /\
    (onStop_throws component_props (length (onStopCalls (store_after scenarioA))) = None ->
     status (store_after (scenarioA ++ [ev_stop 0])) = stopped /\
     audioChunksRef (store_after (scenarioA ++ [ev_stop 0])) = []) /\
    (onStop_throws component_props (length (onStopCalls (store_after scenarioA))) <> None ->
     status (store_after (scenarioA ++ [ev_stop 0])) = status (store_after scenarioA) /\
     audioChunksRef (store_after (scenarioA ++ [ev_stop 0])) =
       audioChunksRef (store_after scenarioA)) /\
    ((forall n, onStop_throws component_props n = None) ->
     fragments_since_returned_clear component_props scenarioA =
       fragments_since_clear scenarioA).
Proof.
  apply (finalize_concatenates_fragments component_props scenarioA 0
           (store_after scenarioA) (store_after (scenarioA ++ [ev_stop 0])));
    vm_compute; reflexivity.
Defined.

(** C9: in a reachable store that is capturing on its current recorder, let
    fragments [pre] arrive, then [pause()], then [stop()] without resuming,
    then the recorder's last fragments [late] and its completion event.
    Every turn is executable; [status] is [paused] after the pause with the
    fragments still buffered; the completion produces an artifact, registers
    it and hands it to the callback; the artifact holds, in order, the
    bytes buffered before, those of [pre], and those of [late], so it is
    non-empty whenever data was accumulated before the pause.  [status]
    ends as [stopped] if the callback returns. *)
Theorem stop_from_paused_finalizes
    (props : UseReactMediaRecorderProps) (s : St) (cur : nat)
    (m : MediaRecorder) (pre late : list Blob) :
  onStop props = true ->
  reachable props s ->
  status s = recording ->
  mediaRecorderRef s = Some cur ->
  recorders s !! cur = Some m ->
  mr_state m = rs_recording ->
  exists sp s' audioBlob audioUrl,
    run props s (map (ev_dataavailable cur) pre ++ [call_pauseRecording]) = Some sp /\
    status sp = paused /\
    audioChunksRef sp = audioChunksRef s ++ pre /\
    run props sp
      (call_stopRecording :: map (ev_dataavailable cur) late ++ [ev_stop cur]) =
      Some s' /\
    mediaBlobUrl s' = Some audioUrl /\
    blobUrlStore s' !! audioUrl = Some audioBlob /\
    onStopCalls s' = onStopCalls s ++ [audioBlob] /\
    blob_bytes audioBlob =
      concat (map blob_bytes (audioChunksRef s ++ pre ++ late)) /\
    (concat (map blob_bytes pre) <> [] -> blob_bytes audioBlob <> []) /\
    (onStop_throws props (length (onStopCalls s)) = None -> status s' = stopped).
Proof.
  intros Hon Hreach Hst Hcur Hm Hrs.
  pose proof (reachable_Inv props s Hreach) as HI.
  assert (mr_active m || mr_stopQueued m = true) as Hact.
  { unfold mr_active. by rewrite Hrs. }
  set (s1 := set_audioChunksRef (audioChunksRef s ++ pre) s).
  set (sp := pause_done cur s1).
  set (s2 := stop_requested cur sp).
  assert (run props s (map (ev_dataavailable cur) pre ++ [call_pauseRecording])
          = Some sp) as Hrun1.
  { rewrite run_app, (run_fragments props s cur m pre HI Hm Hact). cbn [run].
    fold s1. by rewrite (step_pause_capturing props s1 cur m Hst Hcur Hm Hrs). }
  assert (Inv sp) as HIp by (eapply Inv_run; eassumption).
  assert (recorders sp !! cur = Some (with_state rs_paused m)) as Hmp.
  { cbn. by rewrite list_lookup_alter_eq, Hm. }
  assert (step props sp call_stopRecording = Some s2) as Hstep2.
  { by apply (step_stop_active props sp cur (with_state rs_paused m)). }
  assert (Inv s2) as HI2 by (eapply Inv_step; eassumption).
  destruct (stop_requested_fields cur sp)
    as (Hst2 & Hbuf2 & Hcalls2 & Hstore2 & Hurl2 & Hrec2).
  fold s2 in Hst2, Hbuf2, Hcalls2, Hstore2, Hurl2, Hrec2.
  assert (recorders s2 !! cur =
          Some (with_stopQueued true (with_state rs_inactive (with_state rs_paused m))))
    as Hm2.
  { by rewrite Hrec2, list_lookup_alter_eq, Hmp. }
  destruct (run_fragments_stop props s2 cur _ late HI2 Hm2 eq_refl)
    as (mimeType & Hrun3).
  set (s3 := dequeued cur (set_audioChunksRef (audioChunksRef s2 ++ late) s2))
    in Hrun3.
  assert (blobUrlStore s3 = blobUrlStore s) as Estore by (cbn; by rewrite Hstore2).
  assert (onStopCalls s3 = onStopCalls s) as Ecalls by (cbn; by rewrite Hcalls2).
  assert (audioChunksRef s3 = (audioChunksRef s ++ pre) ++ late) as Ebuf
    by (cbn; by rewrite Hbuf2).
  destruct (finalized_fields props mimeType s3 Hon)
    as (Hurl' & Hstore' & Hcalls' & Hret & _).
  rewrite Estore in Hurl', Hstore'. rewrite Ebuf in Hstore', Hcalls'.
  rewrite Ecalls in Hcalls', Hret.
  exists sp, (finalized props mimeType s3),
    (new_Blob ((audioChunksRef s ++ pre) ++ late) mimeType),
    (length (blobUrlStore s)).
  split; [exact Hrun1|]. split; [reflexivity|]. split; [reflexivity|].
  split; [cbn [run]; rewrite Hstep2; exact Hrun3|].
  split; [exact Hurl'|]. split; [exact Hstore'|].
  split; [exact Hcalls'|].
  cbn [blob_bytes new_Blob]. rewrite <- app_assoc. split; [reflexivity|].
  split; [|intros Hnone; by apply Hret].
  rewrite !map_app, !concat_app. intros Hpre Hnil.
  apply app_eq_nil in Hnil as [_ Hnil]. apply app_eq_nil in Hnil as [Hnil _].
  contradiction.
Qed.

Lemma stop_from_paused_finalizes_witness :
  exists sp s' audioBlob audioUrl,
    run component_props (store_after capturing)
      (map (ev_dataavailable 0) [b1] ++ [call_pauseRecording]) = Some sp /\
    status sp = paused /\
    audioChunksRef sp = audioChunksRef (store_after capturing) ++ [b1] /\
    run component_props sp
      (call_stopRecording :: map (ev_dataavailable 0) [b2] ++ [ev_stop 0]) =
      Some s' /\
    mediaBlobUrl s' = Some audioUrl /\
    blobUrlStore s' !! audioUrl = Some audioBlob /\
    onStopCalls s' = onStopCalls (store_after capturing) ++ [audioBlob] /\
    blob_bytes audioBlob =
      concat (map blob_bytes (audioChunksRef (store_after capturing) ++ [b1] ++ [b2])) /\
    (concat (map blob_bytes [b1]) <> [] -> blob_bytes audioBlob <> []) /\
    (onStop_throws component_props (length (onStopCalls (store_after capturing))) = None ->
     status s' = stopped).
Proof.
  apply (stop_from_paused_finalizes component_props (store_after capturing) 0
           {| mr_stream := 0; mr_state := rs_recording; mr_mimeType := webm;
              mr_ondataavailable := true; mr_onstop := true;
              mr_stopQueued := false |} [b1] [b2]).
  - reflexivity.
  - exists capturing. vm_compute. reflexivity.
  - vm_compute. reflexivity.
  - vm_compute. reflexivity.
  - vm_compute. reflexivity.
  - reflexivity.
Defined.

(** C5, as stated, fails: in Scenario D the store is [idle] right after
    [reset()], but the completion event that arrives afterwards is handled
    like any other: [status] ends as [stopped], an artifact is minted, and
    the callback is called with it. *)
Lemma completion_after_reset_not_ignored :
  status <$> run component_props init
               (capturing ++ [ev_dataavailable 0 b1; call_stopRecording; call_reset]) =
    Some idle /\
  status <$> run component_props init reset_before_completion = Some stopped /\
  mediaBlobUrl <$> run component_props init reset_before_completion =
    Some (Some 0) /\
  onStopCalls <$> run component_props init reset_before_completion =
    Some [{| blob_bytes := [x03]; blob_type := webm |}].
Proof. vm_compute. repeat split. Qed.

(** C5, amended: in a reachable store where recorder [r] has its completion
    queued (after [stop()]), let [reset()] be called, then the recorder's
    last fragments [late] and its completion event arrive.  The completion
    is not ignored: every turn is executable, an artifact holding exactly
    the bytes of [late] (what arrived after the reset) is registered under
    [mediaBlobUrl], and the callback is called with it; [status] ends as
    [stopped] if the callback returns, and stays [idle] if it throws. *)
Theorem completion_after_reset_finalizes
    (props : UseReactMediaRecorderProps) (s : St) (r : nat)
    (m : MediaRecorder) (late : list Blob) :
  onStop props = true ->
  reachable props s ->
  recorders s !! r = Some m ->
  mr_stopQueued m = true ->
  exists s' audioBlob audioUrl,
    run props s (call_reset :: map (ev_dataavailable r) late ++ [ev_stop r]) =
      Some s' /\
    mediaBlobUrl s' = Some audioUrl /\
    blobUrlStore s' !! audioUrl = Some audioBlob /\
    blob_bytes audioBlob = concat (map blob_bytes late) /\
    onStopCalls s' = onStopCalls s ++ [audioBlob] /\
    (onStop_throws props (length (onStopCalls s)) = None -> status s' = stopped) /\
    (onStop_throws props (length (onStopCalls s)) <> None -> status s' = idle).
Proof.
  intros Hon Hreach Hm Hq.
  pose proof (reachable_Inv props s Hreach) as HI.
  set (s1 := final (reset s)).
  assert (Inv s1) as HI1 by by apply Inv_reset.
  destruct (run_fragments_stop props s1 r m late HI1 Hm Hq) as (mimeType & Hrun).
  set (s2 := dequeued r (set_audioChunksRef (audioChunksRef s1 ++ late) s1)) in Hrun.
  destruct (finalized_fields props mimeType s2 Hon)
    as (Hurl' & Hstore' & Hcalls' & Hret & Hthrow).
  exists (finalized props mimeType s2), (new_Blob late mimeType),
    (length (blobUrlStore s)).
  split; [exact Hrun|]. split; [exact Hurl'|]. split; [exact Hstore'|].
  split; [reflexivity|]. split; [exact Hcalls'|].
  split; intros H; [by apply Hret | by apply Hthrow].
Qed.

Lemma completion_after_reset_finalizes_witness :
  exists s' audioBlob audioUrl,
    run component_props (store_after pending_finalize)
      (call_reset :: map (ev_dataavailable 0) [b2] ++ [ev_stop 0]) = Some s' /\
    mediaBlobUrl s' = Some audioUrl /\
    blobUrlStore s' !! audioUrl = Some audioBlob /\
    blob_bytes audioBlob = concat (map blob_bytes [b2]) /\
    onStopCalls s' = onStopCalls (store_after pending_finalize) ++ [audioBlob] /\
    (onStop_throws component_props
       (length (onStopCalls (store_after pending_finalize))) = None ->
     status s' = stopped) /\
    (onStop_throws component_props
       (length (onStopCalls (store_after pending_finalize))) <> None ->
     status s' = idle).
Proof.
  apply (completion_after_reset_finalizes component_props
           (store_after pending_finalize) 0
           {| mr_stream := 0; mr_state := rs_inactive; mr_mimeType := webm;
              mr_ondataavailable := true; mr_onstop := true;
              mr_stopQueued := true |} [b2]).
  - reflexivity.
  - exists pending_finalize. vm_compute. reflexivity.
  - vm_compute. reflexivity.
  - reflexivity.
Defined.




(** C2, as stated, fails both ways.  A session abandoned by [reset()] while
    capturing ends [idle] with [streamRef] still set and the tracks of its
    stream never stopped: the transition out of [recording] released the
    stream zero times.  After a normal stop and completion the store is
    [stopped] with [streamRef] still set.  And between [stop()] and the
    completion the store is still [recording] although the tracks of its
    stream are already stopped. *)
Lemma reset_leaves_stream_open :
  status <$> run component_props init capturing = Some recording /\
  status <$> run component_props init pending_finalize = Some recording /\
  streams <$> run component_props init pending_finalize =
    Some [{| trackStops := 1 |}] /\
  status <$> run component_props init abandoned = Some idle /\
  streamRef <$> run component_props init abandoned = Some (Some 0) /\
  streams <$> run component_props init abandoned = Some [{| trackStops := 0 |}] /\
  status <$> run component_props init (scenarioA ++ [ev_stop 0]) = Some stopped /\
  streamRef <$> run component_props init (scenarioA ++ [ev_stop 0]) = Some (Some 0).
Proof. vm_compute. repeat split. Qed.

(** C2, amended: in every reachable store with [status] [recording] or
    [paused], the recorder and stream refs are set and point at existing
    host objects (the converse does not hold: the refs are never cleared).
    A [stopRecording()] call in such a store returns normally, stops the
    tracks of the current stream exactly once more, touches no other
    stream, and leaves [streamRef] and [status] as they were. *)
Theorem stop_releases_current_stream
    (props : UseReactMediaRecorderProps) (s : St) :
  reachable props s ->
  status s = recording \/ status s = paused ->
  exists cur stream m,
    mediaRecorderRef s = Some cur /\
    cur < length (recorders s) /\
    streamRef s = Some stream /\
    streams s !! stream = Some m /\
    thrown (stopRecording s) = None /\
    streams (final (stopRecording s)) !! stream =
      Some {| trackStops := S (trackStops m) |} /\
    (forall j, j <> stream ->
       streams (final (stopRecording s)) !! j = streams s !! j) /\
    streamRef (final (stopRecording s)) = Some stream /\
    status (final (stopRecording s)) = status s.
Proof.
  intros Hreach Hst. pose proof (reachable_Inv props s Hreach) as HI.
  destruct (inv_status_ref s HI) as [cur Hcur];
    [destruct Hst as [-> | ->]; discriminate .. |].
  pose proof (inv_recorder_ref s HI cur Hcur) as Hlt.
  destruct (lookup_lt_is_Some_2 _ _ Hlt) as [mc Hmc].
  destruct (inv_ref_stream s HI) as [stream Hstream]; [by eexists|].
  destruct (lookup_lt_is_Some_2 _ _ (inv_stream_ref s HI stream Hstream))
    as [m Hm].
  exists cur, stream, m.
  split; [assumption|]. split; [assumption|]. split; [assumption|].
  split; [assumption|].
  assert (includes [recording; paused] (status s) = true) as Hinc
    by (destruct Hst as [-> | ->]; reflexivity).
  unfold includes in Hinc. cbn in Hinc.
  js_unfold. cbn. rewrite Hcur, Hinc. cbn. rewrite Hmc. cbn.
  destruct (mr_state mc); cbn; rewrite Hstream; cbn.
  all: split; [reflexivity|]; split; [by rewrite list_lookup_alter_eq, Hm|].
  all: split; [intros j Hj; by rewrite list_lookup_alter_ne | by split].
Qed.

Lemma stop_releases_current_stream_witness :
  exists cur stream m,
    mediaRecorderRef (store_after capturing) = Some cur /\
    cur < length (recorders (store_after capturing)) /\
    streamRef (store_after capturing) = Some stream /\
    streams (store_after capturing) !! stream = Some m /\
    thrown (stopRecording (store_after capturing)) = None /\
    streams (final (stopRecording (store_after capturing))) !! stream =
      Some {| trackStops := S (trackStops m) |} /\
    (forall j, j <> stream ->
       streams (final (stopRecording (store_after capturing))) !! j =
       streams (store_after capturing) !! j) /\
    streamRef (final (stopRecording (store_after capturing))) = Some stream /\
    status (final (stopRecording (store_after capturing))) =
      status (store_after capturing).
Proof.
  apply (stop_releases_current_stream component_props (store_after capturing)).
  - exists capturing. vm_compute. reflexivity.
  - left. vm_compute. reflexivity.
Defined.

(** C3, as stated, fails: after a completed take, a second take is granted
    and the store is [recording] with the first take's [mediaBlobUrl] still
    in place.  And [reset()] after a completed take nulls [mediaBlobUrl] but
    the object URL it held stays registered. *)
Lemma second_take_keeps_old_artifact :
  status <$> run component_props init second_take = Some recording /\
  mediaBlobUrl <$> run component_props init second_take = Some (Some 0) /\
  mediaBlobUrl <$> run component_props init (scenarioA ++ [ev_stop 0; call_reset]) =
    Some None /\
  blobUrlStore <$> run component_props init (scenarioA ++ [ev_stop 0; call_reset]) =
    Some [{| blob_bytes := [x01; x02; x03]; blob_type := webm |}].
Proof. vm_compute. repeat split. Qed.

(** C3, amended: in every reachable store with [status = stopped] the
    artifact reference is set and resolves to a registered blob (the
    converse does not hold).  [reset()] sets the reference to [null] but
    releases nothing: the registry of object URLs is left as it was. *)
Theorem artifact_reference_lifecycle
    (props : UseReactMediaRecorderProps) (s : St) :
  (reachable props s -> status s = stopped ->
   exists audioUrl audioBlob,
     mediaBlobUrl s = Some audioUrl /\ blobUrlStore s !! audioUrl = Some audioBlob) /\
  mediaBlobUrl (final (reset s)) = None /\
  blobUrlStore (final (reset s)) = blobUrlStore s.
Proof.
  split; [|by split].
  intros Hreach Hst. pose proof (reachable_Inv props s Hreach) as HI.
  destruct (inv_stopped_url s HI Hst) as [audioUrl Hurl].
  destruct (lookup_lt_is_Some_2 _ _ (inv_url_ref s HI audioUrl Hurl))
    as [audioBlob Hblob].
  by exists audioUrl, audioBlob.
Qed.

Lemma artifact_reference_lifecycle_witness :
  exists audioUrl audioBlob,
    mediaBlobUrl (store_after (scenarioA ++ [ev_stop 0])) = Some audioUrl /\
    blobUrlStore (store_after (scenarioA ++ [ev_stop 0])) !! audioUrl =
      Some audioBlob.
Proof.
  apply (proj1 (artifact_reference_lifecycle component_props
                  (store_after (scenarioA ++ [ev_stop 0])))).
  - exists (scenarioA ++ [ev_stop 0]). vm_compute. reflexivity.
  - vm_compute. reflexivity.
Defined.

(** * Further properties of the hook *)

Lemma RecordingStatus_eqb_refl (a : RecordingStatus) : RecordingStatus_eqb a a = true.
Proof. by destruct a. Qed.

Lemma RecordingStatus_eqb_eq (a b : RecordingStatus) :
  RecordingStatus_eqb a b = true <-> a = b.
Proof. destruct a, b; cbn; split; congruence. Qed.

Lemma alter_alter_restore {A} (f g : A -> A) (l : list A) (i : nat) (x : A) :
  l !! i = Some x -> f (g x) = x -> alter f i (alter g i l) = l.
Proof.
  revert i. induction l as [|a l IH]; intros [|i] Hl Hfg; try discriminate.
  - cbn in *. injection Hl as ->. by rewrite Hfg.
  - cbn in *. f_equal. by apply IH.
Qed.

Lemma set_status_same (s : St) : set_status (status s) s = s.
Proof. by destruct s. Qed.

(** X1: outside a session, that is when [status] is neither [recording] nor
    [paused], or when no recorder was ever created, [stopRecording()]
    returns without touching the store: no recorder is stopped and no
    track is ended. *)
Theorem stop_noop_outside_session (s : St) :
  (status s <> recording /\ status s <> paused) \/ mediaRecorderRef s = None ->
  stopRecording s = Ret tt s.
Proof.
  intros H. unfold stopRecording, bind, gets, getStatus, gets.
  destruct (mediaRecorderRef s) as [cur|]; [|reflexivity].
  destruct H as [[H1 H2] | H]; [|discriminate].
  destruct (status s); try reflexivity; congruence.
Qed.

Lemma stop_noop_outside_session_witness :
  stopRecording (store_after (scenarioA ++ [ev_stop 0])) =
  Ret tt (store_after (scenarioA ++ [ev_stop 0])).
Proof.
  apply stop_noop_outside_session. left. vm_compute. split; discriminate.
Defined.

(** X2: on a capturing recorder, [pause()] followed by [resume()] gives back
    exactly the store it started from, and on a paused recorder so does
    [resume()] followed by [pause()]; in particular nothing buffered is
    lost across a pause. *)
Theorem pause_resume_round_trip
    (props : UseReactMediaRecorderProps) (s : St) (cur : nat) (m : MediaRecorder) :
  mediaRecorderRef s = Some cur ->
  recorders s !! cur = Some m ->
  (status s = recording -> mr_state m = rs_recording ->
   run props s [call_pauseRecording; call_resumeRecording] = Some s) /\
  (status s = paused -> mr_state m = rs_paused ->
   run props s [call_resumeRecording; call_pauseRecording] = Some s).
Proof.
  intros Hcur Hm. split; intros Hst Hrs.
  - cbn [run]. rewrite (step_pause_capturing props s cur m Hst Hcur Hm Hrs).
    unfold step. cbn [enabled handle]. do 2 f_equal.
    js_unfold. cbn. rewrite Hcur. cbn.
    rewrite list_lookup_alter_eq, Hm. cbn.
    rewrite (alter_alter_restore _ _ _ _ m Hm).
    + rewrite <- Hst. by destruct s.
    + destruct m; cbn in *; by subst.
  - cbn [run]. unfold step at 1. cbn [enabled handle].
    js_unfold. cbn. rewrite Hcur, Hst. cbn. rewrite Hm. cbn. rewrite Hrs. cbn.
    unfold step. cbn [enabled handle]. do 2 f_equal.
    js_unfold. cbn. rewrite Hcur. cbn.
    rewrite list_lookup_alter_eq, Hm. cbn.
    rewrite (alter_alter_restore _ _ _ _ m Hm).
    + rewrite <- Hst. by destruct s.
    + destruct m; cbn in *; by subst.
Qed.

Lemma pause_resume_round_trip_witness :
  run component_props (store_after capturing)
    [call_pauseRecording; call_resumeRecording] = Some (store_after capturing).
Proof.
  apply (proj1 (pause_resume_round_trip component_props (store_after capturing) 0
           {| mr_stream := 0; mr_state := rs_recording; mr_mimeType := webm;
              mr_ondataavailable := true; mr_onstop := true;
              mr_stopQueued := false |} eq_refl eq_refl)); reflexivity.
Defined.

(** X3: the second turn of [startRecording()] never throws, whatever the
    outcome of the request and of the recorder set-up, so the promise it
    returns never rejects.  It ends with [status = recording] when the
    set-up went through.  Otherwise it logs the error and ends with
    [permission_denied] if the error is the [DOMException] named
    [NotAllowedError] and with [idle] for every other error, wherever in
    the [try] block the error came from.  It never touches the fragment
    buffer, the artifact reference or the callback. *)
Theorem startRecording_never_throws (o : Settlement) (s : St) :
  thrown (startRecording_resume o s) = None /\
  (failure_of o = None ->
   status (final (startRecording_resume o s)) = recording /\
   console (final (startRecording_resume o s)) = console s) /\
  (forall error, failure_of o = Some error ->
   console (final (startRecording_resume o s)) = console s ++ [error] /\
   (error = DOMException "NotAllowedError" ->
    status (final (startRecording_resume o s)) = permission_denied) /\
   (error <> DOMException "NotAllowedError" ->
    status (final (startRecording_resume o s)) = idle)) /\
  audioChunksRef (final (startRecording_resume o s)) = audioChunksRef s /\
  mediaBlobUrl (final (startRecording_resume o s)) = mediaBlobUrl s /\
  onStopCalls (final (startRecording_resume o s)) = onStopCalls s.
Proof.
  assert (forall error s1,
            (error = DOMException "NotAllowedError" ->
             status (caught error s1) = permission_denied) /\
            (error <> DOMException "NotAllowedError" ->
             status (caught error s1) = idle)) as Hclass.
  { intros error s1. cbn. split; intros Herr.
    - apply is_NotAllowedError_spec in Herr. by rewrite Herr.
    - destruct (is_NotAllowedError error) eqn:Hc; [|reflexivity].
      by apply is_NotAllowedError_spec in Hc. }
  destruct o; rewrite ?startRecording_resume_rejects,
    ?startRecording_resume_ctor_throws, ?startRecording_resume_start_throws,
    ?startRecording_resume_succeeds;
    (split; [reflexivity|]); (split; [intros Hf; try discriminate Hf; by split|]);
    (split; [|by repeat split]);
    intros error' Hf; try discriminate Hf; injection Hf as <-;
    (split; [reflexivity|]); apply Hclass.
Qed.

Lemma startRecording_never_throws_witness :
  status (final (startRecording_resume (succeeds webm) init)) = recording /\
  status (final (startRecording_resume
                   (start_throws webm (DOMException "NotAllowedError")) init)) =
    permission_denied /\
  status (final (startRecording_resume
                   (ctor_throws (DOMException "NotSupportedError")) init)) = idle.
Proof.
  split; [|split].
  - apply (startRecording_never_throws (succeeds webm) init). reflexivity.
  - apply (startRecording_never_throws
             (start_throws webm (DOMException "NotAllowedError")) init
             ) with (error := DOMException "NotAllowedError"); reflexivity.
  - apply (startRecording_never_throws
             (ctor_throws (DOMException "NotSupportedError")) init
             ) with (error := DOMException "NotSupportedError");
      [reflexivity | discriminate].
Defined.

Lemma handle_ev_stop
    (props : UseReactMediaRecorderProps) (s : St) (r : nat) (m : MediaRecorder) :
  Inv s -> recorders s !! r = Some m -> mr_stopQueued m = true ->
  exists mc,
    handle props (ev_stop r) s =
    match onStop_outcome props s with
    | None => Ret tt (finalized props (mr_mimeType mc) (dequeued r s))
    | Some error => Exc error (finalized props (mr_mimeType mc) (dequeued r s))
    end.
Proof.
  intros HI Hm Hq.
  destruct (current_recorder s HI) as (cur & mc & Hcur & Hmc).
  { eapply Nat.le_lt_trans; [apply Nat.le_0_l | eapply lookup_lt_Some, Hm]. }
  exists mc.
  cbn [handle]. unfold bind at 1. unfold update_recorder at 1. unfold modify at 1.
  fold (dequeued r s). unfold bind at 1. unfold the_recorder at 1.
  assert (recorders (dequeued r s) !! r = Some (with_stopQueued false m)) as ->.
  { cbn. rewrite list_lookup_alter_eq, Hm. reflexivity. }
  assert (mr_onstop m = true) as Hon.
  { apply (handlers_installed_at s r m HI Hm). rewrite Hq. apply orb_true_r. }
  cbn [mr_onstop with_stopQueued]. rewrite Hon.
  assert (recorders (dequeued r s) !! cur =
          Some (if decide (r = cur) then with_stopQueued false mc else mc)) as Hmc'.
  { cbn. destruct (decide (r = cur)) as [->|Hne].
    - by rewrite list_lookup_alter_eq, Hmc.
    - by rewrite list_lookup_alter_ne. }
  rewrite (onstop_finalized props (dequeued r s) cur _ Hcur Hmc').
  change (onStop_outcome props (dequeued r s)) with (onStop_outcome props s).
  destruct (decide (r = cur)), (onStop_outcome props s); reflexivity.
Qed.

Lemma Thrown_eqb_NotAllowedError (error : Thrown) :
  Thrown_eqb error (DOMException "NotAllowedError") = is_NotAllowedError error.
Proof. by destruct error. Qed.

(** X8: the status graph.  In a reachable store, the [status] a turn leaves
    is a function of the turn, of the [status] it found and of whether it
    ended in an exception: requesting access, [stop()] and a fragment leave
    it alone; a settled request sets [recording] on success, and on failure
    [permission_denied] for the [DOMException] named [NotAllowedError] and
    [idle] otherwise; [pause()] takes [recording] to [paused] and
    [resume()] takes [paused] to [recording], unless they throw; [reset()]
    sets [idle]; a completion sets [stopped], unless the callback
    throws. *)
Theorem status_moves_along_graph
    (props : UseReactMediaRecorderProps) (s : St) (e : Event) :
  reachable props s ->
  enabled s e = true ->
  status (final (handle props e s)) =
  next_status e (status s) (thrown (handle props e s)).
Proof.
  intros Hreach Hen. pose proof (reachable_Inv props s Hreach) as HI.
  destruct e as [ | o | | | | | r data | r ]; cbn [next_status].
  - reflexivity.
  - cbn [handle]. unfold bind, modify.
    destruct o; cbn [failure_of]; rewrite ?Thrown_eqb_NotAllowedError;
      rewrite ?startRecording_resume_rejects,
        ?startRecording_resume_ctor_throws, ?startRecording_resume_start_throws,
        ?startRecording_resume_succeeds; reflexivity.
  - cbn [handle]. js_cases; reflexivity.
  - cbn [handle]. js_cases; try reflexivity.
    apply RecordingStatus_eqb_eq in Heqb.
    destruct (inv_status_ref s HI) as [cur Hcur]; rewrite ?Heqb; try discriminate.
    congruence.
  - cbn [handle]. js_cases; try reflexivity.
    apply RecordingStatus_eqb_eq in Heqb.
    destruct (inv_status_ref s HI) as [cur Hcur]; rewrite ?Heqb; try discriminate.
    congruence.
  - reflexivity.
  - cbn [handle]. js_cases; reflexivity.
  - cbn [enabled] in Hen.
    destruct (recorders s !! r) as [m|] eqn:Hm; [|discriminate].
    destruct (handle_ev_stop props s r m HI Hm Hen) as [mc ->].
    unfold finalized. change (onStop_outcome props (dequeued r s))
      with (onStop_outcome props s).
    destruct (onStop_outcome props s), (onStop props); reflexivity.
Qed.

Lemma status_moves_along_graph_witness :
  status (final (handle component_props (ev_stop 0) (store_after scenarioA))) =
  next_status (ev_stop 0) (status (store_after scenarioA))
    (thrown (handle component_props (ev_stop 0) (store_after scenarioA))).
Proof.
  apply (status_moves_along_graph component_props).
  - exists scenarioA. vm_compute. reflexivity.
  - vm_compute. reflexivity.
Defined.

(** ** Streams that are out of reach *)

Lemma stream_out_of_reach_step
    (props : UseReactMediaRecorderProps) (i : nat) (s s' : St) (e : Event) :
  Inv s -> i < length (streams s) ->
  streamRef s <> Some i \/ (status s <> recording /\ status s <> paused) ->
  step props s e = Some s' ->
  streams s' !! i = streams s !! i /\ i < length (streams s') /\
  (streamRef s' <> Some i \/ (status s' <> recording /\ status s' <> paused)).
Proof.
  intros HI Hi Hout Hstep.
  destruct e as [ | o | | | | | r data | r ].
  - injection Hstep as <-. by repeat split.
  - unfold step in Hstep. destruct (enabled s (settle o)); [|discriminate].
    injection Hstep as <-. cbn [handle].
    unfold bind, modify.
    destruct o;
      rewrite ?startRecording_resume_rejects,
        ?startRecording_resume_ctor_throws, ?startRecording_resume_start_throws,
        ?startRecording_resume_succeeds; cbn.
    + split; [reflexivity|]. split; [assumption|]. right.
      destruct (is_NotAllowedError error); split; discriminate.
    + rewrite lookup_app_l, length_app by assumption.
      split; [reflexivity|]. split; [lia|]. left. intros [= Heq]. lia.
    + rewrite lookup_app_l, length_app by assumption.
      split; [reflexivity|]. split; [lia|]. left. intros [= Heq]. lia.
    + rewrite lookup_app_l, length_app by assumption.
      split; [reflexivity|]. split; [lia|]. left. intros [= Heq]. lia.
  - injection Hstep as <-. cbn [handle]. js_cases.
    all: repeat match goal with H : streamRef _ = _ |- _ => rewrite H; clear H end.
    all: rewrite ?length_alter; split; [|by split]; try reflexivity.
    all: apply list_lookup_alter_ne; intros ->.
    all: destruct Hout as [Hout | [H1 H2]]; [congruence|].
    all: destruct (status s); cbn in *; congruence.
  - injection Hstep as <-. cbn [handle]. js_cases; try by repeat split.
    all: split; [reflexivity|]; split; [assumption|].
    all: destruct Hout as [Hout | [H1 H2]]; [by left|].
    all: destruct (status s); cbn in *; congruence.
  - injection Hstep as <-. cbn [handle]. js_cases; try by repeat split.
    all: split; [reflexivity|]; split; [assumption|].
    all: destruct Hout as [Hout | [H1 H2]]; [by left|].
    all: destruct (status s); cbn in *; congruence.
  - injection Hstep as <-. cbn. split; [reflexivity|]. split; [assumption|].
    right. split; discriminate.
  - unfold step in Hstep.
    destruct (enabled s (ev_dataavailable r data)); [|discriminate].
    injection Hstep as <-. cbn [handle]. js_cases; by repeat split.
  - pose proof Hstep as Hen. unfold step in Hen. cbn [enabled] in Hen.
    destruct (recorders s !! r) as [m|] eqn:Hm; [|discriminate].
    destruct (mr_stopQueued m) eqn:Hq; [|discriminate].
    destruct (step_ev_stop props s r m HI Hm Hq) as (cur & mc & _ & _ & Heq).
    rewrite Heq in Hstep. injection Hstep as <-.
    unfold finalized.
    destruct (onStop_outcome props (dequeued r s)), (onStop props); cbn.
    all: split; [reflexivity|]; split; [assumption|].
    all: first [right; split; discriminate | exact Hout].
Qed.

Lemma stream_out_of_reach_run
    (props : UseReactMediaRecorderProps) (i : nat) (tr : list Event) (s s' : St) :
  Inv s -> i < length (streams s) ->
  streamRef s <> Some i \/ (status s <> recording /\ status s <> paused) ->
  run props s tr = Some s' ->
  streams s' !! i = streams s !! i.
Proof.
  revert s. induction tr as [|e tr IH]; intros s HI Hi Hout; cbn.
  - by intros [= <-].
  - destruct (step props s e) as [s1|] eqn:Hstep; [|discriminate]. intros Hrun.
    destruct (stream_out_of_reach_step props i s s1 e HI Hi Hout Hstep)
      as (Heq & Hi1 & Hout1).
    rewrite <- Heq. apply IH; try assumption. eapply Inv_step; eassumption.
Qed.

(** X5: a stream is stopped only while it is the current one and [status]
    is [recording] or [paused].  Once a stream is no longer current, or the
    session has left those two states (by completion, by [reset()], by a
    failed start), no later execution ever stops its tracks: whatever
    state its tracks are in, they stay in it. *)
Theorem stream_out_of_reach_never_stopped
    (props : UseReactMediaRecorderProps) (s s' : St) (i : nat) (tr : list Event) :
  reachable props s ->
  i < length (streams s) ->
  streamRef s <> Some i \/ (status s <> recording /\ status s <> paused) ->
  run props s tr = Some s' ->
  streams s' !! i = streams s !! i.
Proof.
  intros Hreach. apply stream_out_of_reach_run. by apply (reachable_Inv props).
Qed.

Lemma stream_out_of_reach_never_stopped_witness :
  streams (store_after (abandoned ++ capturing ++ [call_stopRecording])) !! 0 =
  streams (store_after abandoned) !! 0.
Proof.
  apply (stream_out_of_reach_never_stopped component_props
           (store_after abandoned) _ 0 (capturing ++ [call_stopRecording])).
  - exists abandoned. vm_compute. reflexivity.
  - vm_compute. lia.
  - right. vm_compute. split; discriminate.
  - vm_compute. reflexivity.
Defined.

(** X4: when the recorder set-up fails after access was granted (the
    [MediaRecorder] constructor or [start()] throws), the granted stream
    has already been stored in [streamRef]; the [catch] leaves it open, and
    no later execution ever stops its tracks. *)
Theorem failed_setup_leaves_stream_open
    (props : UseReactMediaRecorderProps) (s s1 s' : St) (o : Settlement)
    (error : Thrown) (tr : list Event) :
  reachable props s ->
  o = ctor_throws error \/ (exists mimeType, o = start_throws mimeType error) ->
  step props s (settle o) = Some s1 ->
  run props s1 tr = Some s' ->
  status s1 = status_after_failure error /\
  streamRef s1 = Some (length (streams s)) /\
  streams s1 !! length (streams s) = Some {| trackStops := 0 |} /\
  streams s' !! length (streams s) = Some {| trackStops := 0 |}.
Proof.
  intros Hreach Ho Hstep Hrun.
  pose proof (reachable_Inv props s Hreach) as HI.
  assert (Inv s1) as HI1 by (eapply Inv_step; eassumption).
  assert (status s1 = status_after_failure error /\
          streamRef s1 = Some (length (streams s)) /\
          streams s1 = streams s ++ [{| trackStops := 0 |}]) as (Hst & Hsr & Hss).
  { unfold step in Hstep. destruct (enabled s (settle o)); [|discriminate].
    injection Hstep as <-. cbn [handle].
    unfold bind, modify.
    destruct Ho as [-> | [mimeType ->]];
      rewrite ?startRecording_resume_ctor_throws,
        ?startRecording_resume_start_throws; by repeat split. }
  split; [assumption|]. split; [assumption|].
  assert (streams s1 !! length (streams s) = Some {| trackStops := 0 |}) as Hlive
    by (rewrite Hss; apply lookup_snoc).
  split; [assumption|]. rewrite <- Hlive.
  apply (stream_out_of_reach_run props _ tr s1); try assumption.
  - rewrite Hss, length_app. cbn. lia.
  - right. rewrite Hst. unfold status_after_failure.
    destruct (is_NotAllowedError error); split; discriminate.
Qed.

Lemma failed_setup_leaves_stream_open_witness :
  status (store_after [call_startRecording; settle (ctor_throws (DOMException "NotSupportedError"))]) =
    status_after_failure (DOMException "NotSupportedError") /\
  streamRef (store_after [call_startRecording; settle (ctor_throws (DOMException "NotSupportedError"))]) =
    Some (length (streams (store_after [call_startRecording]))) /\
  streams (store_after [call_startRecording; settle (ctor_throws (DOMException "NotSupportedError"))])
    !! length (streams (store_after [call_startRecording])) =
    Some {| trackStops := 0 |} /\
  streams (store_after [call_startRecording; settle (ctor_throws (DOMException "NotSupportedError"));
                        call_stopRecording; call_reset])
    !! length (streams (store_after [call_startRecording])) =
    Some {| trackStops := 0 |}.
Proof.
  apply (failed_setup_leaves_stream_open component_props
           (store_after [call_startRecording]) _ _
           (ctor_throws (DOMException "NotSupportedError"))
           (DOMException "NotSupportedError") [call_stopRecording; call_reset]).
  - exists [call_startRecording]. vm_compute. reflexivity.
  - by left.
  - vm_compute. reflexivity.
  - vm_compute. reflexivity.
Defined.

(** ** Artifacts along an execution *)

Lemma step_artifacts
    (props : UseReactMediaRecorderProps) (s s' : St) (e : Event) :
  Inv s -> step props s e = Some s' ->
  match e with
  | ev_stop _ =>
      exists audioBlob,
        blobUrlStore s' = blobUrlStore s ++ [audioBlob] /\
        mediaBlobUrl s' = Some (length (blobUrlStore s)) /\
        onStopCalls s' =
          (if onStop props then onStopCalls s ++ [audioBlob] else onStopCalls s)
  | call_reset =>
      blobUrlStore s' = blobUrlStore s /\ mediaBlobUrl s' = None /\
      onStopCalls s' = onStopCalls s
  | _ =>
      blobUrlStore s' = blobUrlStore s /\ mediaBlobUrl s' = mediaBlobUrl s /\
      onStopCalls s' = onStopCalls s
  end.
Proof.
  intros HI Hstep.
  destruct e as [ | o | | | | | r data | r ].
  - injection Hstep as <-. by repeat split.
  - unfold step in Hstep. destruct (enabled s (settle o)); [|discriminate].
    injection Hstep as <-. cbn [handle]. unfold bind, modify.
    destruct o;
      rewrite ?startRecording_resume_rejects,
        ?startRecording_resume_ctor_throws, ?startRecording_resume_start_throws,
        ?startRecording_resume_succeeds; by repeat split.
  - injection Hstep as <-. cbn [handle]. js_cases; by repeat split.
  - injection Hstep as <-. cbn [handle]. js_cases; by repeat split.
  - injection Hstep as <-. cbn [handle]. js_cases; by repeat split.
  - injection Hstep as <-. by repeat split.
  - unfold step in Hstep.
    destruct (enabled s (ev_dataavailable r data)); [|discriminate].
    injection Hstep as <-. cbn [handle]. js_cases; by repeat split.
  - pose proof Hstep as Hen. unfold step in Hen. cbn [enabled] in Hen.
    destruct (recorders s !! r) as [m|] eqn:Hm; [|discriminate].
    destruct (mr_stopQueued m) eqn:Hq; [|discriminate].
    destruct (step_ev_stop props s r m HI Hm Hq) as (cur & mc & _ & _ & Heq).
    rewrite Heq in Hstep. injection Hstep as <-.
    exists (new_Blob (audioChunksRef s) (mr_mimeType mc)).
    unfold finalized.
    destruct (onStop_outcome props (dequeued r s)), (onStop props);
      by repeat split.
Qed.

Lemma artifacts_run
    (props : UseReactMediaRecorderProps) (tr : list Event) (s s' : St) :
  Inv s -> run props s tr = Some s' ->
  length (blobUrlStore s') = length (blobUrlStore s) + completions tr /\
  (onStopCalls s = (if onStop props then blobUrlStore s else []) ->
   onStopCalls s' = (if onStop props then blobUrlStore s' else [])) /\
  ((forall u, mediaBlobUrl s = Some u -> S u = length (blobUrlStore s)) ->
   forall u, mediaBlobUrl s' = Some u -> S u = length (blobUrlStore s')).
Proof.
  revert s. induction tr as [|e tr IH]; intros s HI; cbn [run].
  - intros [= <-]. unfold completions. cbn. by rewrite Nat.add_0_r.
  - destruct (step props s e) as [s1|] eqn:Hstep; [|discriminate]. intros Hrun.
    pose proof (step_artifacts props s s1 e HI Hstep) as Hart.
    destruct (IH s1 (Inv_step props s s1 e HI Hstep) Hrun) as (Hlen & Hcalls & Hurl).
    assert (length (blobUrlStore s1) + completions tr =
            length (blobUrlStore s) + completions (e :: tr) /\
            (onStopCalls s = (if onStop props then blobUrlStore s else []) ->
             onStopCalls s1 = (if onStop props then blobUrlStore s1 else [])) /\
            ((forall u, mediaBlobUrl s = Some u -> S u = length (blobUrlStore s)) ->
             forall u, mediaBlobUrl s1 = Some u -> S u = length (blobUrlStore s1)))
      as (E1 & E2 & E3).
    { unfold completions.
      destruct e; cbv beta iota in Hart; cbn [List.filter length];
        try (destruct Hart as (-> & -> & ->); by repeat split).
      destruct Hart as (audioBlob & -> & -> & ->). rewrite length_app. cbn.
      split; [lia|]. split.
      - intros ->. by destruct (onStop props).
      - intros _ u [= <-]. lia. }
    split; [by rewrite Hlen, E1|]. split.
    + intros H. apply Hcalls, E2, H.
    + intros H. apply Hurl, E3, H.
Qed.

(** X6: along every execution from the initial store, each completion event
    mints exactly one object URL, and nothing else does: the registry
    holds as many blobs as completions were delivered.  If the caller passed
    [onStop], it was called exactly once per completion, with those blobs
    in that order; if not, it was never called. *)
Theorem one_artifact_per_completion
    (props : UseReactMediaRecorderProps) (tr : list Event) (s : St) :
  run props init tr = Some s ->
  length (blobUrlStore s) = completions tr /\
  onStopCalls s = (if onStop props then blobUrlStore s else []).
Proof.
  intros Hrun.
  destruct (artifacts_run props tr init s Inv_init Hrun) as (Hlen & Hcalls & _).
  split; [exact Hlen|]. apply Hcalls. by destruct (onStop props).
Qed.

Lemma one_artifact_per_completion_witness :
  length (blobUrlStore (store_after second_take)) = completions second_take /\
  onStopCalls (store_after second_take) =
    (if onStop component_props then blobUrlStore (store_after second_take) else []).
Proof.
  apply (one_artifact_per_completion component_props second_take).
  vm_compute. reflexivity.
Defined.

(** X7: whenever the artifact reference is set in a reachable store, it is
    the most recently minted object URL; with an [onStop] callback, the blob
    it resolves to is the one the callback received last. *)
Theorem artifact_reference_is_latest
    (props : UseReactMediaRecorderProps) (s : St) (u : nat) :
  reachable props s ->
  mediaBlobUrl s = Some u ->
  S u = length (blobUrlStore s) /\
  blobUrlStore s !! u = last (blobUrlStore s) /\
  (onStop props = true -> blobUrlStore s !! u = last (onStopCalls s)).
Proof.
  intros [tr Hrun] Hurl.
  destruct (artifacts_run props tr init s Inv_init Hrun) as (_ & Hcalls & Hlatest).
  assert (S u = length (blobUrlStore s)) as Hu.
  { apply Hlatest; [|assumption]. intros u'. discriminate. }
  assert (blobUrlStore s !! u = last (blobUrlStore s)) as Hlast.
  { rewrite last_lookup, <- Hu. reflexivity. }
  split; [assumption|]. split; [assumption|].
  intros Hon. rewrite Hcalls, Hon; [assumption|]. by rewrite Hon.
Qed.

Lemma artifact_reference_is_latest_witness :
  S 0 = length (blobUrlStore (store_after second_take)) /\
  blobUrlStore (store_after second_take) !! 0 =
    last (blobUrlStore (store_after second_take)) /\
  (onStop component_props = true ->
   blobUrlStore (store_after second_take) !! 0 =
     last (onStopCalls (store_after second_take))).
Proof.
  apply (artifact_reference_is_latest component_props).
  - exists second_take. vm_compute. reflexivity.
  - vm_compute. reflexivity.
Defined.

(** ** Exceptions *)

Lemma current_recorder_exists (s : St) (cur : nat) :
  Inv s -> mediaRecorderRef s = Some cur -> recorders s !! cur <> None.
Proof.
  intros HI Hcur Hnone. apply lookup_ge_None in Hnone.
  pose proof (inv_recorder_ref s HI cur Hcur). lia.
Qed.

(** X9: in a reachable store, a turn ends in an uncaught exception in two
    cases only.  Either it is [pause()] or [resume()] passing its status
    guard while the current recorder is already inactive (between
    [stop()] and the completion, for instance): the exception is the
    recorder's [InvalidStateError] and the store is left exactly as it
    was.  Or it is a completion whose callback throws: the exception is
    the callback's, the artifact is already minted and [mediaBlobUrl] set,
    and the buffer and [status] are left as they were.  [stop()],
    [reset()], both turns of [start()] and the [dataavailable] handler
    never throw. *)
Theorem uncaught_exceptions_characterised
    (props : UseReactMediaRecorderProps) (s : St) (e : Event) (error : Thrown) :
  reachable props s ->
  enabled s e = true ->
  thrown (handle props e s) = Some error ->
  (error = InvalidStateError /\
   final (handle props e s) = s /\
   exists cur m,
     mediaRecorderRef s = Some cur /\ recorders s !! cur = Some m /\
     mr_state m = rs_inactive /\
     ((e = call_pauseRecording /\ status s = recording) \/
      (e = call_resumeRecording /\ status s = paused))) \/
  (exists r,
     e = ev_stop r /\ onStop props = true /\
     onStop_throws props (length (onStopCalls s)) = Some error /\
     status (final (handle props e s)) = status s /\
     audioChunksRef (final (handle props e s)) = audioChunksRef s /\
     mediaBlobUrl (final (handle props e s)) = Some (length (blobUrlStore s)) /\
     length (onStopCalls (final (handle props e s))) = S (length (onStopCalls s))).
Proof.
  intros Hreach Hen. pose proof (reachable_Inv props s Hreach) as HI.
  destruct e as [ | o | | | | | r data | r ].
  - discriminate.
  - cbn [handle]. unfold bind, modify.
    destruct o;
      rewrite ?startRecording_resume_rejects,
        ?startRecording_resume_ctor_throws, ?startRecording_resume_start_throws,
        ?startRecording_resume_succeeds; discriminate.
  - cbn [handle]. js_cases; try discriminate.
    all: by destruct (current_recorder_exists s n HI).
  - cbn [handle]. js_cases; try discriminate.
    + intros [= <-]. left. split; [reflexivity|]. split; [reflexivity|].
      exists n, m. apply RecordingStatus_eqb_eq in Heqb. by eauto 10.
    + by destruct (current_recorder_exists s n HI).
  - cbn [handle]. js_cases; try discriminate.
    + intros [= <-]. left. split; [reflexivity|]. split; [reflexivity|].
      exists n, m. apply RecordingStatus_eqb_eq in Heqb. by eauto 10.
    + by destruct (current_recorder_exists s n HI).
  - discriminate.
  - cbn [enabled] in Hen. cbn [handle]. js_cases; discriminate.
  - cbn [enabled] in Hen.
    destruct (recorders s !! r) as [m|] eqn:Hm; [|discriminate].
    destruct (handle_ev_stop props s r m HI Hm Hen) as [mc ->].
    unfold finalized. change (onStop_outcome props (dequeued r s))
      with (onStop_outcome props s).
    unfold onStop_outcome. destruct (onStop props) eqn:Hon; [|discriminate].
    destruct (onStop_throws props (length (onStopCalls s))) as [err|] eqn:Hthrows;
      [|discriminate].
    intros [= <-]. right. exists r. cbn. rewrite length_app. cbn.
    repeat split; try done. lia.
Qed.

Lemma uncaught_exceptions_characterised_witness :
  (InvalidStateError = InvalidStateError /\
   final (handle component_props call_pauseRecording (store_after pending_finalize)) =
     store_after pending_finalize /\
   exists cur m,
     mediaRecorderRef (store_after pending_finalize) = Some cur /\
     recorders (store_after pending_finalize) !! cur = Some m /\
     mr_state m = rs_inactive /\
     ((call_pauseRecording = call_pauseRecording /\
       status (store_after pending_finalize) = recording) \/
      (call_pauseRecording = call_resumeRecording /\
       status (store_after pending_finalize) = paused))) \/
  (exists r,
     call_pauseRecording = ev_stop r /\ onStop component_props = true /\
     onStop_throws component_props
       (length (onStopCalls (store_after pending_finalize))) =
       Some InvalidStateError /\
     status (final (handle component_props call_pauseRecording
                      (store_after pending_finalize))) =
       status (store_after pending_finalize) /\
     audioChunksRef (final (handle component_props call_pauseRecording
                              (store_after pending_finalize))) =
       audioChunksRef (store_after pending_finalize) /\
     mediaBlobUrl (final (handle component_props call_pauseRecording
                            (store_after pending_finalize))) =
       Some (length (blobUrlStore (store_after pending_finalize))) /\
     length (onStopCalls (final (handle component_props call_pauseRecording
                                   (store_after pending_finalize)))) =
       S (length (onStopCalls (store_after pending_finalize)))).
Proof.
  apply (uncaught_exceptions_characterised component_props).
  - exists pending_finalize. vm_compute. reflexivity.
  - reflexivity.
  - vm_compute. reflexivity.
Defined.

(** * Properties of the component *)

Lemma In_buttonGroup (st : RecordingStatus) (isPlaying : bool) (c : Control) :
  In (Button c) (buttonGroup st isPlaying) ->
  match c with
  | StartRecording => st = idle \/ st = permission_denied
  | PauseRecording => st = recording
  | ResumeRecording => st = paused
  | StopRecording => st = recording \/ st = paused
  | PlayRecording => st = stopped /\ isPlaying = false
  | PausePlayback => st = stopped /\ isPlaying = true
  end.
Proof.
  destruct st, isPlaying, c; cbn; intros H;
    repeat (destruct H as [H|H]; try discriminate H);
    try contradiction; auto.
Qed.

Lemma In_button_views (k : Component) (c : Control) :
  In (Button c) (render k) \/ In (Button c) (render_again k) ->
  In (Button c) (buttonGroup (status (hook k)) (isPlayingFinishedAudio k)).
Proof.
  unfold render, render_again, statusText, audioElement.
  generalize (buttonGroup (status (hook k)) (isPlayingFinishedAudio k)).
  intros bg [H|H]; repeat (apply in_app_or in H as [H|H]); try assumption.
  all: repeat (destruct (RecordingStatus_eqb _ _); cbn in H);
    destruct (mediaBlobUrl (hook k)); cbn in H;
    repeat (destruct H as [H|H]; try discriminate H); contradiction.
Qed.

(** X10: in either revision of the component, over a reachable store, a
    button is on screen only when its command would go through: Start only
    in [idle] or [permission_denied]; Pause only in [recording], Resume only
    in [paused] and Stop only in one of the two, each with a recorder to
    act on; Play and Pause-playback only in [stopped], with the [<audio>]
    element rendered, so that the call on [audioRef] reaches it. *)
Theorem buttons_pass_their_guard (k : Component) (c : Control) :
  reachable component_props (hook k) ->
  In (Button c) (render k) \/ In (Button c) (render_again k) ->
  match c with
  | StartRecording =>
      status (hook k) = idle \/ status (hook k) = permission_denied
  | PauseRecording =>
      status (hook k) = recording /\ is_Some (mediaRecorderRef (hook k))
  | ResumeRecording =>
      status (hook k) = paused /\ is_Some (mediaRecorderRef (hook k))
  | StopRecording =>
      (status (hook k) = recording \/ status (hook k) = paused) /\
      is_Some (mediaRecorderRef (hook k))
  | PlayRecording =>
      status (hook k) = stopped /\ isPlayingFinishedAudio k = false /\
      (exists src, In (Audio src) (render k) /\ In (Audio src) (render_again k)) /\
      audioCalls (onClick PlayRecording k) = audioCalls k ++ [audio_play]
  | PausePlayback =>
      status (hook k) = stopped /\ isPlayingFinishedAudio k = true /\
      (exists src, In (Audio src) (render k) /\ In (Audio src) (render_again k)) /\
      audioCalls (onClick PausePlayback k) = audioCalls k ++ [audio_pause]
  end.
Proof.
  intros Hreach Hin. pose proof (reachable_Inv _ _ Hreach) as HI.
  apply In_button_views, In_buttonGroup in Hin.
  assert (status (hook k) = stopped ->
          exists src, mediaBlobUrl (hook k) = Some src) as Hurl
    by (intros Hst; apply (inv_stopped_url _ HI Hst)).
  destruct c.
  - exact Hin.
  - split; [exact Hin|]. apply (inv_status_ref _ HI); rewrite Hin; discriminate.
  - split; [exact Hin|]. apply (inv_status_ref _ HI); rewrite Hin; discriminate.
  - split; [exact Hin|].
    apply (inv_status_ref _ HI); destruct Hin as [-> | ->]; discriminate.
  - destruct Hin as [Hst Hfl]. destruct (Hurl Hst) as [src Hsrc].
    split; [exact Hst|]. split; [exact Hfl|]. split.
    + exists src. unfold render, render_again. rewrite Hsrc.
      split; repeat (apply in_or_app; right); by left.
    + cbn. unfold audio_call. by rewrite Hsrc.
  - destruct Hin as [Hst Hfl]. destruct (Hurl Hst) as [src Hsrc].
    split; [exact Hst|]. split; [exact Hfl|]. split.
    + exists src. unfold render, render_again. rewrite Hsrc.
      split; repeat (apply in_or_app; right); by left.
    + cbn. unfold audio_call. by rewrite Hsrc.
Qed.

Lemma buttons_pass_their_guard_witness :
  status (hook capturing_component) = recording /\
  is_Some (mediaRecorderRef (hook capturing_component)).
Proof.
  apply (buttons_pass_their_guard capturing_component PauseRecording).
  - exists capturing. vm_compute. reflexivity.
  - left. vm_compute. left. reflexivity.
Defined.

Lemma host_event_keeps_stopped
    (props : UseReactMediaRecorderProps) (s s' : St) (e : Event) :
  is_host_event e = true ->
  status s = stopped -> pendingGetUserMedia s = [] ->
  step props s e = Some s' ->
  status s' = stopped /\ pendingGetUserMedia s' = [].
Proof.
  intros He Hst Hp. unfold step.
  destruct e as [ | o | | | | | r data | r ]; try discriminate He.
  - cbn [enabled]. by rewrite Hp.
  - destruct (enabled s _); [|discriminate]. intros [= <-].
    cbn [handle]. js_cases; by split.
  - destruct (enabled s _); [|discriminate]. intros [= <-].
    cbn [handle]. js_cases; by split.
Qed.

(** X11: the component as first written offers no way out of a finished
    take.  From a store with [status = stopped] and no access request
    pending, whatever the user clicks among what is on screen and whatever
    the host delivers, [status] stays [stopped]: the only buttons are the
    two playback ones, and [reset] is wired to nothing. *)
Theorem finished_take_is_final (k k' : Component) (tr : list UiEvent) :
  status (hook k) = stopped ->
  pendingGetUserMedia (hook k) = [] ->
  ui_run render k tr = Some k' ->
  status (hook k') = stopped /\ pendingGetUserMedia (hook k') = [].
Proof.
  revert k. induction tr as [|e tr IH]; intros k Hst Hp; cbn [ui_run].
  - by intros [= <-].
  - destruct (ui_step render k e) as [k1|] eqn:Hstep; [|discriminate].
    apply IH.
    + destruct e as [el | e]; cbn [ui_step] in Hstep.
      * unfold render, buttonGroup in Hstep. rewrite Hst in Hstep.
        destruct el as [ | c | msg | | src]; cbn in Hstep;
          try (destruct (existsb _ _); discriminate Hstep).
        -- destruct c, (isPlayingFinishedAudio k), (mediaBlobUrl (hook k));
             cbn in Hstep; try discriminate Hstep;
             by injection Hstep as <-.
        -- destruct (isPlayingFinishedAudio k), (mediaBlobUrl (hook k));
             cbn in Hstep; discriminate Hstep.
      * destruct (is_host_event e) eqn:He; [|discriminate].
        destruct (step component_props (hook k) e) as [s1|] eqn:Hs; [|discriminate].
        injection Hstep as <-. cbn.
        apply (host_event_keeps_stopped component_props (hook k) s1 e He Hst Hp Hs).
    + destruct e as [el | e]; cbn [ui_step] in Hstep.
      * unfold render, buttonGroup in Hstep. rewrite Hst in Hstep.
        destruct el as [ | c | msg | | src]; cbn in Hstep;
          try (destruct (existsb _ _); discriminate Hstep).
        -- destruct c, (isPlayingFinishedAudio k), (mediaBlobUrl (hook k));
             cbn in Hstep; try discriminate Hstep;
             by injection Hstep as <-.
        -- destruct (isPlayingFinishedAudio k), (mediaBlobUrl (hook k));
             cbn in Hstep; discriminate Hstep.
      * destruct (is_host_event e) eqn:He; [|discriminate].
        destruct (step component_props (hook k) e) as [s1|] eqn:Hs; [|discriminate].
        injection Hstep as <-. cbn.
        apply (host_event_keeps_stopped component_props (hook k) s1 e He Hst Hp Hs).
Qed.

Lemma finished_take_is_final_witness :
  status (hook (onClick PlayRecording finished_component)) = stopped /\
  pendingGetUserMedia (hook (onClick PlayRecording finished_component)) = [].
Proof.
  apply (finished_take_is_final finished_component _
           [ui_click (Button PlayRecording)]).
  - vm_compute. reflexivity.
  - vm_compute. reflexivity.
  - vm_compute. reflexivity.
Defined.

(** X12: the later revision adds the way out.  Its record-again link is on
    screen exactly when [status = stopped] (the first revision never shows
    it), and it calls [reset].  From any finished take, clicking it, then
    Start, then the grant arriving, is an executable sequence that ends in
    [recording] with the previous artifact reference cleared and an empty
    fragment buffer. *)
Theorem record_again_allows_retake (k : Component) (mimeType : string) :
  (In RecordAgain (render_again k) <-> status (hook k) = stopped) /\
  ~ In RecordAgain (render k) /\
  (status (hook k) = stopped ->
   exists k',
     ui_run render_again k
       [ui_click RecordAgain; ui_click (Button StartRecording);
        ui_host (settle (succeeds mimeType))] = Some k' /\
     status (hook k') = recording /\
     mediaBlobUrl (hook k') = None /\
     audioChunksRef (hook k') = [] /\
     render_again k' =
       [Button PauseRecording; Button StopRecording; StatusText "Recording..."]).
Proof.
  split; [|split].
  - unfold render_again, buttonGroup, statusText, audioElement.
    destruct (status (hook k)), (isPlayingFinishedAudio k), (mediaBlobUrl (hook k));
      cbn; split; intros H; try discriminate H; try reflexivity;
      repeat (destruct H as [H|H]; try discriminate H); try contradiction; auto 10.
  - unfold render, buttonGroup, audioElement.
    destruct (status (hook k)), (isPlayingFinishedAudio k), (mediaBlobUrl (hook k));
      cbn; intros H;
      repeat (destruct H as [H|H]; try discriminate H); contradiction.
  - intros Hst. cbn [ui_run ui_step].
    assert (existsb (Element_eqb RecordAgain) (render_again k) = true) as ->.
    { unfold render_again, buttonGroup, statusText, audioElement. rewrite Hst.
      by destruct (isPlayingFinishedAudio k), (mediaBlobUrl (hook k)). }
    assert (existsb (Element_eqb (Button StartRecording))
              (render_again (with_hook (final (reset (hook k))) k)) = true) as ->.
    { unfold render_again, buttonGroup, statusText, audioElement. cbn.
      by destruct (isPlayingFinishedAudio k). }
    cbn [is_host_event onClick]. unfold step. cbn [enabled hook with_hook].
    assert (pendingGetUserMedia
              (final (startRecording_call component_props (final (reset (hook k))))) =
            pendingGetUserMedia (hook k) ++ [true]) as Hp by reflexivity.
    rewrite Hp. destruct (pendingGetUserMedia (hook k) ++ [true]) eqn:Hnil.
    { apply app_eq_nil in Hnil as [_ Hn]. discriminate Hn. }
    cbn [handle]. unfold bind at 1. unfold modify at 1.
    rewrite startRecording_resume_succeeds. cbn [final].
    eexists. split; [reflexivity|]. cbn.
    by repeat split.
Qed.

Lemma record_again_allows_retake_witness :
  exists k',
    ui_run render_again finished_component
      [ui_click RecordAgain; ui_click (Button StartRecording);
       ui_host (settle (succeeds webm))] = Some k' /\
    status (hook k') = recording /\
    mediaBlobUrl (hook k') = None /\
    audioChunksRef (hook k') = [] /\
    render_again k' =
      [Button PauseRecording; Button StopRecording; StatusText "Recording..."].
Proof.
  apply (proj2 (proj2 (record_again_allows_retake finished_component webm))).
  vm_compute. reflexivity.
Defined.

(** * The earlier component against the hook *)

Lemma startRecording_inline_resume_succeeds (mimeType : string) (s : St) :
  startRecording_inline_resume (succeeds mimeType) s = Ret tt (started mimeType s).
Proof.
  unfold startRecording_inline_resume, try_catch, bind, modify, deref,
    update_recorder, mr_start, the_recorder, setStatus, modify, bind. cbn.
  rewrite !alter_snoc. cbn. rewrite lookup_snoc. cbn.
  rewrite alter_snoc. reflexivity.
Qed.

Lemma startRecording_inline_resume_fails (o : Settlement) (error : Thrown) (s : St) :
  failure_of o = Some error ->
  exists s1,
    startRecording_inline_resume o s =
      Ret tt (set_status permission_denied (set_console (console s1 ++ [error]) s1)) /\
    startRecording_resume o s = Ret tt (caught error s1) /\
    console s1 = console s.
Proof.
  intros Ho. destruct o as [e | e | mimeType e | mimeType]; try discriminate Ho;
    injection Ho as ->.
  - exists s. rewrite startRecording_resume_rejects. by repeat split.
  - eexists. rewrite startRecording_resume_ctor_throws.
    split; [|split; reflexivity]. reflexivity.
  - eexists. rewrite startRecording_resume_start_throws.
    split; [|split; reflexivity].
    unfold startRecording_inline_resume, try_catch, bind, modify, deref,
      update_recorder, mr_start, console_error, setStatus, modify. cbn.
    rewrite !alter_snoc. reflexivity.
Qed.

Lemma stopRecording_inline_agrees (s : St) :
  status s <> paused -> stopRecording_inline s = stopRecording s.
Proof.
  intros Hst. unfold stopRecording_inline, stopRecording, bind, gets, getStatus, gets.
  destruct (mediaRecorderRef s); [|reflexivity].
  destruct (status s); try reflexivity. congruence.
Qed.

Lemma step_inline_agrees (s s' : St) (e : Event) :
  status s <> paused -> only_refusals [e] = true ->
  step_inline s e = Some s' ->
  step component_props s e = Some s' /\ status s' <> paused.
Proof.
  intros Hst Hok. unfold step_inline, step.
  destruct e as [ | o | | | | | r data | r ]; cbn [handle_inline]; try discriminate.
  - cbn [enabled]. intros [= <-]. by split.
  - destruct (enabled s (settle o)); [|discriminate]. intros [= <-].
    cbn [handle]. unfold bind, modify.
    destruct (failure_of o) as [error|] eqn:Hf.
    + destruct (startRecording_inline_resume_fails o error
                  (set_pendingGetUserMedia (tail (pendingGetUserMedia s)) s) Hf)
        as (s1 & -> & -> & _).
      cbn in Hok. rewrite Hf in Hok. rewrite andb_true_r in Hok.
      unfold caught. rewrite Hok. by split.
    + destruct o; try discriminate Hf.
      rewrite startRecording_inline_resume_succeeds, startRecording_resume_succeeds.
      by split.
  - cbn [enabled]. intros [= <-]. cbn [handle].
    rewrite (stopRecording_inline_agrees s Hst). split; [reflexivity|].
    js_cases; assumption.
  - destruct (enabled s _); [|discriminate]. intros [= <-].
    split; [reflexivity|]. js_cases; assumption.
  - destruct (enabled s _); [|discriminate]. intros [= <-].
    split; [reflexivity|]. unfold onstop_inline. js_cases; try assumption; discriminate.
Qed.

(** X13: the earlier component and the hook are interchangeable on what
    they have in common.  Started outside [paused], any execution of the
    earlier component's logic in which every failure is a permission
    refusal is, turn for turn, an execution of the hook as the final
    component configures it, ending in the same store. *)
Theorem inline_component_agrees (tr : list Event) (s s' : St) :
  status s <> paused ->
  only_refusals tr = true ->
  run_inline s tr = Some s' ->
  run component_props s tr = Some s'.
Proof.
  revert s. induction tr as [|e tr IH]; intros s Hst Hok; cbn [run_inline run].
  - done.
  - destruct (step_inline s e) as [s1|] eqn:Hstep; [|discriminate].
    cbn [only_refusals forallb] in Hok. apply andb_prop in Hok as [He Htr].
    destruct (step_inline_agrees s s1 e Hst) as [-> Hst1]; [|assumption|].
    { cbn. by rewrite He. }
    by apply IH.
Qed.

Lemma inline_component_agrees_witness :
  run component_props init (scenarioA ++ [ev_stop 0]) =
  Some (store_after (scenarioA ++ [ev_stop 0])).
Proof.
  apply inline_component_agrees.
  - discriminate.
  - reflexivity.
  - vm_compute. reflexivity.
Defined.

(** X14: where they differ.  In the earlier component every failed start,
    whatever the error and wherever in the [try] block it arose, ends in
    [permission_denied] without throwing, the error logged.  The hook ends
    in the very same store when the error is a [DOMException] named
    [NotAllowedError]; for any other error it ends in the same store
    except that [status] is [idle]. *)
Theorem inline_failure_is_permission_denied
    (o : Settlement) (error : Thrown) (s : St) :
  failure_of o = Some error ->
  thrown (startRecording_inline_resume o s) = None /\
  status (final (startRecording_inline_resume o s)) = permission_denied /\
  console (final (startRecording_inline_resume o s)) = console s ++ [error] /\
  final (startRecording_inline_resume o s) =
    set_status permission_denied (final (startRecording_resume o s)) /\
  (error = DOMException "NotAllowedError" ->
   status (final (startRecording_resume o s)) = permission_denied /\
   final (startRecording_resume o s) = final (startRecording_inline_resume o s)) /\
  (error <> DOMException "NotAllowedError" ->
   status (final (startRecording_resume o s)) = idle /\
   final (startRecording_resume o s) <> final (startRecording_inline_resume o s)).
Proof.
  intros Hf.
  destruct (startRecording_inline_resume_fails o error s Hf) as (s1 & -> & -> & Hc).
  split; [reflexivity|]. split; [reflexivity|].
  split; [cbn; by rewrite Hc|].
  split; [unfold caught; by destruct (is_NotAllowedError error)|].
  split.
  - intros ->. by split.
  - intros Hne.
    assert (is_NotAllowedError error = false) as Hcls.
    { destruct (is_NotAllowedError error) eqn:Hcl; [|reflexivity].
      by apply is_NotAllowedError_spec in Hcl. }
    unfold caught. cbn [final]. rewrite Hcls. split; [reflexivity|].
    intros Heq. apply (f_equal status) in Heq. discriminate Heq.
Qed.

Lemma inline_failure_is_permission_denied_witness :
  thrown (startRecording_inline_resume (rejects (DOMException "NotFoundError")) init) = None /\
  status (final (startRecording_inline_resume (rejects (DOMException "NotFoundError")) init)) =
    permission_denied /\
  console (final (startRecording_inline_resume (rejects (DOMException "NotFoundError")) init)) =
    console init ++ [DOMException "NotFoundError"] /\
  final (startRecording_inline_resume (rejects (DOMException "NotFoundError")) init) =
    set_status permission_denied
      (final (startRecording_resume (rejects (DOMException "NotFoundError")) init)) /\
  (DOMException "NotFoundError" = DOMException "NotAllowedError" ->
   status (final (startRecording_resume (rejects (DOMException "NotFoundError")) init)) =
     permission_denied /\
   final (startRecording_resume (rejects (DOMException "NotFoundError")) init) =
     final (startRecording_inline_resume (rejects (DOMException "NotFoundError")) init)) /\
  (DOMException "NotFoundError" <> DOMException "NotAllowedError" ->
   status (final (startRecording_resume (rejects (DOMException "NotFoundError")) init)) =
     idle /\
   final (startRecording_resume (rejects (DOMException "NotFoundError")) init) <>
     final (startRecording_inline_resume (rejects (DOMException "NotFoundError")) init)).
Proof.
  apply inline_failure_is_permission_denied. reflexivity.
Defined.

(** * A normal stop, end to end *)

(** X15: the normal way out of a session.  In a reachable store with
    [status] [recording] or [paused] whose current recorder is still
    capturing, [stop()], then whatever last fragments the recorder
    delivers, then its completion event, is an executable sequence that
    leaves the tracks of the current stream stopped exactly once more.  If
    the caller's callback returns, [status] ends [stopped] and from there
    on no execution ever stops these tracks again.  If the callback
    throws, [status] is left as it was, and a further [stop()] goes
    through its guard and stops the same tracks a second time. *)
Theorem normal_stop_releases_once
    (props : UseReactMediaRecorderProps) (s : St) (cur stream : nat)
    (m : MediaRecorder) (ms : MediaStream) (late : list Blob) :
  reachable props s ->
  status s = recording \/ status s = paused ->
  mediaRecorderRef s = Some cur ->
  recorders s !! cur = Some m ->
  mr_state m <> rs_inactive ->
  streamRef s = Some stream ->
  streams s !! stream = Some ms ->
  exists s1,
    run props s
      (call_stopRecording :: map (ev_dataavailable cur) late ++ [ev_stop cur]) =
      Some s1 /\
    streams s1 !! stream = Some {| trackStops := S (trackStops ms) |} /\
    (onStop_outcome props s = None ->
     status s1 = stopped /\
     forall tr s', run props s1 tr = Some s' ->
       streams s' !! stream = Some {| trackStops := S (trackStops ms) |}) /\
    (onStop_outcome props s <> None ->
     status s1 = status s /\
     exists s', step props s1 call_stopRecording = Some s' /\
       streams s' !! stream = Some {| trackStops := S (S (trackStops ms)) |}).
Proof.
  intros Hreach Hst Hcur Hm Hrs Hsr Hms.
  pose proof (reachable_Inv props s Hreach) as HI.
  assert (includes [recording; paused] (status s) = true) as Hinc
    by (destruct Hst as [-> | ->]; reflexivity).
  pose proof (step_stop_active props s cur m Hinc Hcur Hm Hrs) as Hstep.
  set (s2 := stop_requested cur s) in *.
  assert (Inv s2) as HI2 by (eapply Inv_step; eassumption).
  assert (streams s2 !! stream = Some {| trackStops := S (trackStops ms) |}) as Hms2.
  { unfold s2, stop_requested. rewrite Hsr. cbn.
    by rewrite list_lookup_alter_eq, Hms. }
  destruct (stop_requested_fields cur s) as (Hst2 & _ & Hcalls2 & _ & _ & Hrec2).
  fold s2 in Hst2, Hcalls2, Hrec2.
  assert (recorders s2 !! cur =
          Some (with_stopQueued true (with_state rs_inactive m))) as Hm2
    by (by rewrite Hrec2, list_lookup_alter_eq, Hm).
  destruct (run_fragments_stop props s2 cur _ late HI2 Hm2 eq_refl)
    as (mimeType & Hrun).
  set (s1 := finalized props mimeType
               (dequeued cur (set_audioChunksRef (audioChunksRef s2 ++ late) s2)))
    in *.
  assert (run props s
            (call_stopRecording :: map (ev_dataavailable cur) late ++ [ev_stop cur]) =
          Some s1) as Hrun1 by (cbn [run]; by rewrite Hstep).
  assert (onStop_outcome props
            (dequeued cur (set_audioChunksRef (audioChunksRef s2 ++ late) s2)) =
          onStop_outcome props s) as Hout
    by (unfold onStop_outcome; cbn; by rewrite Hcalls2).
  assert (streams s1 = streams s2) as Hss1.
  { unfold s1, finalized. destruct (onStop_outcome props _); by destruct (onStop props). }
  exists s1. split; [exact Hrun1|]. split; [by rewrite Hss1|]. split.
  - intros Hnone.
    assert (status s1 = stopped) as Hst1.
    { unfold s1, finalized. rewrite Hout, Hnone. by destruct (onStop props). }
    split; [exact Hst1|].
    intros tr s' Hrun'. rewrite <- Hms2, <- Hss1.
    apply (stream_out_of_reach_run props stream tr s1); try assumption.
    + eapply Inv_run; eassumption.
    + rewrite Hss1. eapply lookup_lt_Some, Hms2.
    + right. rewrite Hst1. split; discriminate.
  - intros Hsome.
    assert (status s1 = status s /\ mediaRecorderRef s1 = Some cur /\
            streamRef s1 = Some stream /\
            recorders s1 !! cur =
              Some (with_stopQueued false
                      (with_stopQueued true (with_state rs_inactive m))))
      as (Hst1 & Hcur1 & Hsr1 & Hm1).
    { unfold s1, finalized. rewrite Hout.
      destruct (onStop_outcome props s); [|done].
      assert (mediaRecorderRef s2 = Some cur /\ streamRef s2 = Some stream)
        as [Hc2 Hs2] by (unfold s2, stop_requested; rewrite Hsr; by cbn).
      destruct (onStop props); cbn; rewrite Hst2, Hc2, Hs2;
        (repeat split; [by rewrite list_lookup_alter_eq, Hm2]). }
    split; [exact Hst1|].
    eexists. split.
    + unfold step. cbn [enabled handle]. f_equal.
    + clearbody s1. js_unfold. cbn. rewrite Hcur1, Hst1. cbn in Hinc. rewrite Hinc. cbn.
      rewrite Hm1. cbn. rewrite Hsr1. cbn.
      by rewrite list_lookup_alter_eq, Hss1, Hms2.
Qed.

Lemma normal_stop_releases_once_witness :
  exists s1,
    run component_props (store_after capturing)
      (call_stopRecording :: map (ev_dataavailable 0) [b1] ++ [ev_stop 0]) =
      Some s1 /\
    streams s1 !! 0 = Some {| trackStops := S (trackStops {| trackStops := 0 |}) |} /\
    (onStop_outcome component_props (store_after capturing) = None ->
     status s1 = stopped /\
     forall tr s', run component_props s1 tr = Some s' ->
       streams s' !! 0 = Some {| trackStops := S (trackStops {| trackStops := 0 |}) |}) /\
    (onStop_outcome component_props (store_after capturing) <> None ->
     status s1 = status (store_after capturing) /\
     exists s', step component_props s1 call_stopRecording = Some s' /\
       streams s' !! 0 =
         Some {| trackStops := S (S (trackStops {| trackStops := 0 |})) |}).
Proof.
  apply (normal_stop_releases_once component_props (store_after capturing) 0 0
           {| mr_stream := 0; mr_state := rs_recording; mr_mimeType := webm;
              mr_ondataavailable := true; mr_onstop := true;
              mr_stopQueued := false |} {| trackStops := 0 |} [b1]).
  - exists capturing. vm_compute. reflexivity.
  - left. vm_compute. reflexivity.
  - vm_compute. reflexivity.
  - vm_compute. reflexivity.
  - discriminate.
  - vm_compute. reflexivity.
  - vm_compute. reflexivity.
Defined.


(** * The playback flag *)

Lemma ui_step_playback_flag
    (view : Component -> list Element) (k k' : Component) (e : UiEvent) :
  ui_step view k e = Some k' ->
  e <> ui_click (Button PausePlayback) ->
  isPlayingFinishedAudio k = true ->
  isPlayingFinishedAudio k' = true.
Proof.
  intros Hstep Hne Hfl. destruct e as [el | e]; cbn [ui_step] in Hstep.
  - destruct (existsb _ _); [|discriminate].
    destruct el as [ | c | msg | | src]; try discriminate Hstep.
    + injection Hstep as <-. destruct c; try assumption; try reflexivity.
      congruence.
    + by injection Hstep as <-.
  - destruct (is_host_event e); [|discriminate].
    destruct (step component_props (hook k) e); [|discriminate].
    by injection Hstep as <-.
Qed.

(** X16: nothing but the Pause-playback button clears the component's
    playback flag: not [reset], not a new take, no host event.
    So in the later revision, if a take is left playing, then in every
    later finished take reached without clicking Pause-playback the screen
    shows Pause-playback and no Play button. *)
Theorem playback_flag_survives_retake (k k' : Component) (tr : list UiEvent) :
  isPlayingFinishedAudio k = true ->
  ~ In (ui_click (Button PausePlayback)) tr ->
  ui_run render_again k tr = Some k' ->
  isPlayingFinishedAudio k' = true /\
  (status (hook k') = stopped ->
   In (Button PausePlayback) (render_again k') /\
   ~ In (Button PlayRecording) (render_again k')).
Proof.
  intros Hfl Hno Hrun.
  assert (isPlayingFinishedAudio k' = true) as Hfl'.
  { revert k Hfl Hno Hrun. induction tr as [|e tr IH]; intros k Hfl Hno; cbn [ui_run].
    - by intros [= <-].
    - destruct (ui_step render_again k e) as [k1|] eqn:Hstep; [|discriminate].
      apply IH.
      + eapply ui_step_playback_flag; [eassumption | | assumption].
        intros ->. apply Hno. by left.
      + intros Hin. apply Hno. by right. }
  split; [assumption|]. intros Hst. split.
  - unfold render_again, buttonGroup. rewrite Hst, Hfl'. cbn. by left.
  - intros Hin.
    pose proof (In_buttonGroup _ _ _ (In_button_views k' PlayRecording (or_intror Hin)))
      as [_ Hf].
    congruence.
Qed.

Lemma playback_flag_survives_retake_witness :
  isPlayingFinishedAudio retaken_component = true /\
  (status (hook retaken_component) = stopped ->
   In (Button PausePlayback) (render_again retaken_component) /\
   ~ In (Button PlayRecording) (render_again retaken_component)).
Proof.
  apply (playback_flag_survives_retake (onClick PlayRecording finished_component) _
           retake_clicks).
  - reflexivity.
  - cbn. intros H. repeat (destruct H as [H|H]; try discriminate H). contradiction.
  - vm_compute. reflexivity.
Defined.

(** * The artifact's type tag *)

Lemma blob_type_of_printable (type : string) :
  Forall (fun c => 32 <= nat_of_ascii c <= 126) (list_ascii_of_string type) ->
  list_ascii_of_string (blob_type_of type) =
    map (fun c => if (65 <=? nat_of_ascii c) && (nat_of_ascii c <=? 90)
                  then ascii_of_nat (nat_of_ascii c + 32) else c)
      (list_ascii_of_string type).
Proof.
  intros Hall. unfold blob_type_of.
  assert (string_forallb ascii_printable type = true) as ->.
  { induction type as [|c type IH]; [reflexivity|].
    cbn in Hall. apply Forall_cons in Hall as [Hc Hall]. cbn.
    rewrite (IH Hall), andb_true_r. unfold ascii_printable.
    apply andb_true_intro. split; apply Nat.leb_le; lia. }
  clear Hall. induction type as [|c type IH]; [reflexivity|].
  cbn. by rewrite IH.
Qed.

Lemma blob_type_of_unprintable (type : string) :
  Exists (fun c => nat_of_ascii c < 32 \/ 126 < nat_of_ascii c)
    (list_ascii_of_string type) ->
  blob_type_of type = EmptyString.
Proof.
  intros Hex. unfold blob_type_of.
  assert (string_forallb ascii_printable type = false) as ->; [|reflexivity].
  induction type as [|c type IH]; cbn in Hex.
  - by apply Exists_nil in Hex.
  - cbn. apply Exists_cons in Hex as [Hc | Hex].
    + unfold ascii_printable.
      apply andb_false_iff. left. apply andb_false_iff.
      destruct Hc as [Hc | Hc]; [left | right]; apply Nat.leb_gt; lia.
    + by rewrite (IH Hex), andb_false_r.
Qed.

(** X17: the artifact of a completion is tagged with the encoding that the
    current recorder reports (the one in [mediaRecorderRef], also when the
    completion comes from an older recorder), as the [Blob] constructor
    keeps it: when every character of the reported encoding is in
    U+0020..U+007E, the tag is that encoding with the letters [A]-[Z] made
    lower case; when some character is outside this range, the tag is the
    empty string.  Its bytes are those of the buffered fragments. *)
Theorem artifact_tagged_with_current_mimeType
    (props : UseReactMediaRecorderProps) (s s' : St) (r : nat) :
  reachable props s ->
  step props s (ev_stop r) = Some s' ->
  exists cur mc audioUrl audioBlob,
    mediaRecorderRef s = Some cur /\ recorders s !! cur = Some mc /\
    mediaBlobUrl s' = Some audioUrl /\
    blobUrlStore s' !! audioUrl = Some audioBlob /\
    blob_bytes audioBlob = concat (map blob_bytes (audioChunksRef s)) /\
    (Forall (fun c => 32 <= nat_of_ascii c <= 126)
       (list_ascii_of_string (mr_mimeType mc)) ->
     list_ascii_of_string (blob_type audioBlob) =
       map (fun c => if (65 <=? nat_of_ascii c) && (nat_of_ascii c <=? 90)
                     then ascii_of_nat (nat_of_ascii c + 32) else c)
         (list_ascii_of_string (mr_mimeType mc))) /\
    (Exists (fun c => nat_of_ascii c < 32 \/ 126 < nat_of_ascii c)
       (list_ascii_of_string (mr_mimeType mc)) ->
     blob_type audioBlob = EmptyString).
Proof.
  intros Hreach Hstep. pose proof (reachable_Inv props s Hreach) as HI.
  pose proof Hstep as Hen. unfold step in Hen. cbn [enabled] in Hen.
  destruct (recorders s !! r) as [m|] eqn:Hm; [|discriminate].
  destruct (mr_stopQueued m) eqn:Hq; [|discriminate]. clear Hen.
  destruct (step_ev_stop props s r m HI Hm Hq) as (cur & mc & Hcur & Hmc & Heq).
  rewrite Heq in Hstep. injection Hstep as <-.
  exists cur, mc, (length (blobUrlStore s)),
    (new_Blob (audioChunksRef s) (mr_mimeType mc)).
  split; [exact Hcur|]. split; [exact Hmc|].
  assert (mediaBlobUrl (finalized props (mr_mimeType mc) (dequeued r s)) =
            Some (length (blobUrlStore s)) /\
          blobUrlStore (finalized props (mr_mimeType mc) (dequeued r s)) !!
            length (blobUrlStore s) =
            Some (new_Blob (audioChunksRef s) (mr_mimeType mc))) as [Hurl Hstore].
  { unfold finalized.
    destruct (onStop_outcome props (dequeued r s)), (onStop props); cbn;
      (split; [reflexivity | apply lookup_snoc]). }
  split; [exact Hurl|]. split; [exact Hstore|]. split; [reflexivity|].
  split; [apply blob_type_of_printable | apply blob_type_of_unprintable].
Qed.

Lemma artifact_tagged_with_current_mimeType_witness :
  exists cur mc audioUrl audioBlob,
    mediaRecorderRef (store_after mixed_case_take) = Some cur /\
    recorders (store_after mixed_case_take) !! cur = Some mc /\
    mediaBlobUrl (store_after (mixed_case_take ++ [ev_stop 0])) = Some audioUrl /\
    blobUrlStore (store_after (mixed_case_take ++ [ev_stop 0])) !! audioUrl =
      Some audioBlob /\
    blob_bytes audioBlob =
      concat (map blob_bytes (audioChunksRef (store_after mixed_case_take))) /\
    (Forall (fun c => 32 <= nat_of_ascii c <= 126)
       (list_ascii_of_string (mr_mimeType mc)) ->
     list_ascii_of_string (blob_type audioBlob) =
       map (fun c => if (65 <=? nat_of_ascii c) && (nat_of_ascii c <=? 90)
                     then ascii_of_nat (nat_of_ascii c + 32) else c)
         (list_ascii_of_string (mr_mimeType mc))) /\
    (Exists (fun c => nat_of_ascii c < 32 \/ 126 < nat_of_ascii c)
       (list_ascii_of_string (mr_mimeType mc)) ->
     blob_type audioBlob = EmptyString).
Proof.
  apply (artifact_tagged_with_current_mimeType component_props
           (store_after mixed_case_take)
           (store_after (mixed_case_take ++ [ev_stop 0])) 0).
  - exists mixed_case_take. vm_compute. reflexivity.
  - vm_compute. reflexivity.
Defined.

(** The mixed-case take, run: the tag of the artifact is in lower case. *)
Example mixed_case_take_runs :
  onStopCalls <$> run component_props init (mixed_case_take ++ [ev_stop 0]) =
  Some [{| blob_bytes := [x01; x02]; blob_type := "audio/webm;codecs=opus" |}].
Proof. vm_compute. reflexivity. Qed.
